(** * LiST-ML host-metrics collector: sampler, queue, writer and the two loops

    The development embeds
      - [collector/src/sampler.cpp]: [sample_cpu_usage], over 64-bit unsigned
        counters and IEEE binary64 doubles;
      - [collector/src/main.cpp]: the consumer loop [write] and the producer
        loop of [main];
    and states the properties of the design document over them. *)

From Stdlib Require Import ZArith QArith Qpower Qabs List Bool Lia String.
From Stdlib Require Import Floats.SpecFloat.
Import ListNotations.
Local Open Scope Z_scope.

(* ===================================================================== *)
(** ** Machine data: [uint64_t] and [double] *)
(* ===================================================================== *)

(** [uint64_t]: a [Z] in [0, 2^64), every operation reduced modulo 2^64. *)
Module U64.
Definition modulus : Z := 2 ^ 64.
Definition wrap (z : Z) : Z := z mod modulus.
Definition add (a b : Z) : Z := wrap (a + b).
Definition sub (a b : Z) : Z := wrap (a - b).
Definition in_range (z : Z) : Prop := 0 <= z < modulus.
End U64.

(** [double]: IEEE 754 binary64 as specified by the standard library's
    [spec_float] (53 bits of precision, infinities at exponent 1024,
    round to nearest, ties to even). *)
Module Double.
Definition prec : Z := 53.
Definition emax : Z := 1024.

(** The conversion [double(x)] of an unsigned 64-bit integer. *)
Definition of_u64 (n : Z) : spec_float := binary_normalize prec emax n 0 false.

(** The operator [/] on doubles. *)
Definition div (x y : spec_float) : spec_float := SFdiv prec emax x y.

Definition zero : spec_float := S754_zero false.
Definition one : spec_float := of_u64 1.

Definition leb (x y : spec_float) : bool := SFleb x y.
Definition ltb (x y : spec_float) : bool := SFltb x y.

(** The rational a finite double stands for. *)
Definition value (x : spec_float) : option Q :=
  match x with
  | S754_zero _ => Some 0%Q
  | S754_finite s m e =>
      Some ((if s then -1 else 1) * inject_Z (Zpos m) * Qpower 2 e)%Q
  | _ => None
  end.

(** [|x - q| <= eps] for a finite [x]. *)
Definition near (x : spec_float) (q eps : Q) : bool :=
  match value x with
  | Some v => (Qle_bool (q - eps) v && Qle_bool v (q + eps))%Q
  | None => false
  end.

(** [0.0 <= x <= 1.0], both comparisons as the hardware makes them
    (a NaN compares false with everything). *)
Definition in_unit_interval (x : spec_float) : bool :=
  leb zero x && leb x one.
End Double.

(** *** Reading the rounding algorithm

    What the proofs below say of the library's shift-and-round procedure. *)

(** The record after [k] steps, against the number shifted: twice the number
    is the kept part, the round bit and the rest. *)
Definition shr_inv (n : Z) (k : nat) (mrs : shr_record) : Prop :=
  0 <= shr_m mrs /\
  exists rest,
    2 * n = 2 ^ (Z.of_nat k + 1) * shr_m mrs
            + (if shr_r mrs then 2 ^ Z.of_nat k else 0) + rest /\
    0 <= rest < 2 ^ Z.of_nat k /\
    (shr_s mrs = false -> rest = 0).

(** The double of a positive 64-bit integer [n]: a normal number whose value
    [v] is [n] itself up to 53 bits, and beyond a multiple of [2^k] at most
    half of [2^k] away from [n]. *)
Definition converts_to (n : Z) (m : positive) (e : Z) (v : Z) : Prop :=
  2 ^ 52 <= Zpos m < 2 ^ 53 /\ -52 <= e <= 12 /\
  Zpos m * 2 ^ (e + 52) = v * 2 ^ 52 /\
  ((n < 2 ^ 53 /\ v = n) \/
   (exists k r, 0 <= k <= 11 /\ 2 ^ (52 + k) <= n < 2 ^ (53 + k) /\
      v = r * 2 ^ k /\ 2 ^ 52 <= r <= 2 ^ 53 /\
      - 2 ^ k <= 2 * n - 2 * v <= 2 ^ k)).

(** Normal doubles of the same sign are ordered by exponent, then mantissa. *)
Definition normal_le (m1 : positive) (e1 : Z) (m2 : positive) (e2 : Z) : Prop :=
  e1 < e2 \/ (e1 = e2 /\ Zpos m1 <= Zpos m2).

(** The strict order. *)
Definition normal_lt (m1 : positive) (e1 : Z) (m2 : positive) (e2 : Z) : Prop :=
  e1 < e2 \/ (e1 = e2 /\ Zpos m1 < Zpos m2).

(* ===================================================================== *)
(** ** The sampler ([sampler.cpp]) *)
(* ===================================================================== *)

(** Modelled from the spec: the [cpusnap] structure of [proc_reader.hpp],
    absent from the sources. A RawCounterSnapshot is a record of the seven
    time-in-state counters, each a 64-bit unsigned quantity; the field names
    are the ones [sampler.cpp] reads. *)
Record cpusnap : Type := mk_cpusnap {
  user_time : Z;
  nice_time : Z;
  system_kernel_time : Z;
  idle_time : Z;
  iowait_time : Z;
  irq_time : Z;
  softirq_time : Z
}.

(** Every field of a snapshot is a value of its type. *)
Definition cpusnap_wf (c : cpusnap) : Prop :=
  U64.in_range (user_time c) /\ U64.in_range (nice_time c) /\
  U64.in_range (system_kernel_time c) /\ U64.in_range (idle_time c) /\
  U64.in_range (iowait_time c) /\ U64.in_range (irq_time c) /\
  U64.in_range (softirq_time c).

(** The deltas of lines 20 to 26, one per counter. *)
Definition user_delta (cpuatt cpuatt1 : cpusnap) : Z :=
  U64.sub (user_time cpuatt1) (user_time cpuatt).
Definition nice_delta (cpuatt cpuatt1 : cpusnap) : Z :=
  U64.sub (nice_time cpuatt1) (nice_time cpuatt).
Definition system_delta (cpuatt cpuatt1 : cpusnap) : Z :=
  U64.sub (system_kernel_time cpuatt1) (system_kernel_time cpuatt).
Definition idle_delta (cpuatt cpuatt1 : cpusnap) : Z :=
  U64.sub (idle_time cpuatt1) (idle_time cpuatt).
Definition iowait_delta (cpuatt cpuatt1 : cpusnap) : Z :=
  U64.sub (iowait_time cpuatt1) (iowait_time cpuatt).
Definition irq_delta (cpuatt cpuatt1 : cpusnap) : Z :=
  U64.sub (irq_time cpuatt1) (irq_time cpuatt).
Definition softirq_delta (cpuatt cpuatt1 : cpusnap) : Z :=
  U64.sub (softirq_time cpuatt1) (softirq_time cpuatt).

(** Line 28: the left-to-right sum of the seven deltas in [uint64_t]. *)
Definition total_delta (cpuatt cpuatt1 : cpusnap) : Z :=
  U64.add (U64.add (U64.add (U64.add (U64.add (U64.add
    (user_delta cpuatt cpuatt1) (nice_delta cpuatt cpuatt1))
    (system_delta cpuatt cpuatt1)) (idle_delta cpuatt cpuatt1))
    (iowait_delta cpuatt cpuatt1)) (irq_delta cpuatt cpuatt1))
    (softirq_delta cpuatt cpuatt1).

(** [sample_cpu_usage], lines 20 to 30, as a function of the two values
    [read_cpu()] returned before and after the one-second sleep:
    [double(total_delta - idle_delta) / double(total_delta)]. *)
Definition sample_cpu_usage (cpuatt cpuatt1 : cpusnap) : spec_float :=
  let total := total_delta cpuatt cpuatt1 in
  let idle := idle_delta cpuatt cpuatt1 in
  Double.div (Double.of_u64 (U64.sub total idle)) (Double.of_u64 total).

(** *** The design document's formula, for comparison *)

(** The deltas as a list, in the order of the structure's fields. *)
Definition deltas (a b : cpusnap) : list Z :=
  [ user_delta a b; nice_delta a b; system_delta a b; idle_delta a b;
    iowait_delta a b; irq_delta a b; softirq_delta a b ].

(** [total = sum(all deltas)], in the counters' type. *)
Definition spec_total (a b : cpusnap) : Z :=
  U64.wrap (fold_right Z.add 0 (deltas a b)).

(** [idle_total = idle_delta + iowait_delta]. *)
Definition spec_idle_total (a b : cpusnap) : Z :=
  U64.add (idle_delta a b) (iowait_delta a b).

(** [Utilization = (total - idle_total) / total]. *)
Definition spec_utilization (a b : cpusnap) : spec_float :=
  Double.div (Double.of_u64 (U64.sub (spec_total a b) (spec_idle_total a b)))
             (Double.of_u64 (spec_total a b)).

(** What the code subtracts from the total: the idle counter alone. *)
Definition busy_utilization (a b : cpusnap) : spec_float :=
  Double.div (Double.of_u64 (U64.sub (spec_total a b) (idle_delta a b)))
             (Double.of_u64 (spec_total a b)).

(** Snapshot pairs of the kinds the properties speak of. *)
Definition deltas_all_zero (a b : cpusnap) : Prop :=
  Forall (fun d => d = 0) (deltas a b).

Definition fields_non_decreasing (a b : cpusnap) : Prop :=
  user_time a <= user_time b /\ nice_time a <= nice_time b /\
  system_kernel_time a <= system_kernel_time b /\ idle_time a <= idle_time b /\
  iowait_time a <= iowait_time b /\ irq_time a <= irq_time b /\
  softirq_time a <= softirq_time b.

(** The seven deltas add up without leaving the counters' type. *)
Definition total_fits (a b : cpusnap) : Prop :=
  fold_right Z.add 0 (deltas a b) < U64.modulus.

(** A snapshot with the given user and idle counters, the others zero. *)
Definition snap_user_idle (u i : Z) : cpusnap :=
  mk_cpusnap u 0 0 i 0 0 0.


(** *** Readings as the counter source makes them *)

(** The seven counters of a snapshot, in the order of [deltas]. *)
Definition counters (c : cpusnap) : list Z :=
  [ user_time c; nice_time c; system_kernel_time c; idle_time c;
    iowait_time c; irq_time c; softirq_time c ].

(** The reading that follows [a] when each counter has advanced by the
    matching field of [adv]: the counters are 64 bits wide, so a counter that
    passes 2^64 starts again from zero. *)
Definition advance (a adv : cpusnap) : cpusnap :=
  mk_cpusnap
    (U64.add (user_time a) (user_time adv))
    (U64.add (nice_time a) (nice_time adv))
    (U64.add (system_kernel_time a) (system_kernel_time adv))
    (U64.add (idle_time a) (idle_time adv))
    (U64.add (iowait_time a) (iowait_time adv))
    (U64.add (irq_time a) (irq_time adv))
    (U64.add (softirq_time a) (softirq_time adv)).

(** The sum of the seven differences between two readings, as integers. *)
Definition true_total (a b : cpusnap) : Z :=
  (user_time b - user_time a) + (nice_time b - nice_time a) +
  (system_kernel_time b - system_kernel_time a) + (idle_time b - idle_time a) +
  (iowait_time b - iowait_time a) + (irq_time b - irq_time a) +
  (softirq_time b - softirq_time a).

(** *** Readings after a counter went back *)

(** A delta no pair of readings taken a moment apart can show: half the
    range of the counter or more. *)
Definition huge_delta (d : Z) : Prop := 2 ^ 63 <= d.

(** The sum of the six differences other than the idle one, as integers. *)
Definition busy_advance (a b : cpusnap) : Z :=
  (user_time b - user_time a) + (nice_time b - nice_time a) +
  (system_kernel_time b - system_kernel_time a) +
  (iowait_time b - iowait_time a) + (irq_time b - irq_time a) +
  (softirq_time b - softirq_time a).

(** Every counter but the idle one advanced or stood still. *)
Definition others_non_decreasing (a b : cpusnap) : Prop :=
  user_time a <= user_time b /\ nice_time a <= nice_time b /\
  system_kernel_time a <= system_kernel_time b /\
  iowait_time a <= iowait_time b /\ irq_time a <= irq_time b /\
  softirq_time a <= softirq_time b.

(* ===================================================================== *)
(** ** The hand-off unit, the queue and the writer *)
(* ===================================================================== *)

(** Modelled from the spec: the [sample] structure of [sampler.hpp], absent
    from the sources; a UtilizationSample is a utilization fraction plus a
    capture timestamp. *)
Record sample : Type := mk_sample {
  cpu_usage : spec_float;
  timestamp : Z
}.

(** Modelled from the spec: the class [Samplequeue] of [queue.hpp], absent
    from the sources. The state is the ordered sequence of buffered samples
    plus the closed/open flag; the bound is fixed when the queue is made.
    Calls are serialized by the queue, so each is one atomic transition; a
    call that would block is reported as such and leaves the queue as it is. *)
Module Samplequeue.
Record t : Type := mk {
  items : list sample;
  closed : bool;
  capacity : nat
}.

Definition empty (cap : nat) : t := mk [] false cap.

Inductive push_result : Type :=
| Pushed (q : t)
| PushBlocked
| QueueClosedError.

(** [push] fails after [close()], blocks at capacity, appends otherwise. *)
Definition push (q : t) (s : sample) : push_result :=
  if closed q then QueueClosedError
  else if (capacity q <=? List.length (items q))%nat then PushBlocked
  else Pushed (mk (items q ++ [s]) (closed q) (capacity q)).

Inductive pop_result : Type :=
| Popped (s : sample) (q : t)
| PopBlocked
| NoMoreData.

(** [pop] hands out the oldest sample; on an empty queue it blocks while
    the queue is open and returns the sentinel once it is closed. *)
Definition pop (q : t) : pop_result :=
  match items q with
  | s :: rest => Popped s (mk rest (closed q) (capacity q))
  | [] => if closed q then NoMoreData else PopBlocked
  end.

Definition close (q : t) : t := mk (items q) true (capacity q).

(** One call of a client, and what the client saw. *)
Inductive op : Type := OpPush (s : sample) | OpPop | OpClose.

Record history : Type := mk_history {
  accepted : list sample;   (* samples whose push succeeded, in order *)
  returned : list sample;   (* samples handed out by pop, in order *)
  refused : nat;            (* pushes answered with QueueClosedError *)
  sentinels : nat           (* pops answered with "no more data" *)
}.

Definition no_history : history := mk_history [] [] 0 0.

Definition apply (o : op) (st : t * history) : t * history :=
  let (q, h) := st in
  match o with
  | OpPush s =>
      match push q s with
      | Pushed q' =>
          (q', mk_history (accepted h ++ [s]) (returned h) (refused h) (sentinels h))
      | PushBlocked => (q, h)
      | QueueClosedError =>
          (q, mk_history (accepted h) (returned h) (S (refused h)) (sentinels h))
      end
  | OpPop =>
      match pop q with
      | Popped s q' =>
          (q', mk_history (accepted h) (returned h ++ [s]) (refused h) (sentinels h))
      | PopBlocked => (q, h)
      | NoMoreData =>
          (q, mk_history (accepted h) (returned h) (refused h) (S (sentinels h)))
      end
  | OpClose => (close q, h)
  end.

(** A serialized interleaving of the clients' calls, oldest first. *)
Definition run (ops : list op) (st : t * history) : t * history :=
  fold_left (fun st o => apply o st) ops st.

(** Repeated [pop] until it stops delivering: the samples delivered, the
    answer that ended the loop, and the queue left behind. The fuel bounds
    the number of calls. *)
Fixpoint drain (fuel : nat) (q : t) : list sample * option pop_result * t :=
  match fuel with
  | O => ([], None, q)
  | S fuel' =>
      match pop q with
      | Popped s q' =>
          let '(out, last, q'') := drain fuel' q' in (s :: out, last, q'')
      | r => ([], Some r, q)
      end
  end.

(** Nothing is reordered, duplicated or dropped: what was accepted is what
    was handed out followed by what is still buffered. *)
Definition conserved (st : t * history) : Prop :=
  accepted (snd st) = returned (snd st) ++ items (fst st).

Definition is_close (o : op) : bool :=
  match o with OpClose => true | _ => false end.
End Samplequeue.

(** Modelled from the spec: the class [Writer] of [writer.hpp], absent from
    the sources. The persistent log is a sequence of records, one per sample;
    [write_sample] appends one record to the stream's buffer, [flush] forces
    the buffer to the log, [close] flushes and releases the file. *)
Module Writer.
Record t : Type := mk {
  path : string;
  log : list sample;        (* records on durable storage, oldest first *)
  buffered : list sample;   (* records written but not yet flushed *)
  closes : nat              (* calls of close() so far *)
}.

Definition open (p : string) (existing : list sample) : t :=
  mk p existing [] 0.

Definition write_sample (w : t) (s : sample) : t :=
  mk (path w) (log w) (buffered w ++ [s]) (closes w).

Definition flush (w : t) : t :=
  mk (path w) (log w ++ buffered w) [] (closes w).

Definition close (w : t) : t :=
  mk (path w) (log w ++ buffered w) [] (S (closes w)).
End Writer.

(* ===================================================================== *)
(** ** The two loops of [main.cpp] *)
(* ===================================================================== *)

(** The calls a thread makes, in program order. *)
Inductive call : Type :=
| CallSampleUsage (data : sample)
| CallPush (data : sample)
| CallPop (data : sample)
| CallWriteSample (data : sample)
| CallFlush.

(** Where the thread running [write] stands in its loop (lines 11 to 15):
    about to call [q.pop()], holding the popped [data] and about to call
    [write_sample], or about to call [flush]. *)
Inductive consumer_at : Type :=
| AtPop
| AtWriteSample (data : sample)
| AtFlush (data : sample).

(** Where the main thread stands in its loop (lines 25 to 28): about to
    call [sample_usage()], or holding its result and about to call [push]. *)
Inductive producer_at : Type :=
| AtSampleUsage
| AtPush (data : sample).

(** The process: the queue shared by the two threads, the writer owned by
    the consumer thread, each thread's calls so far and its place in its
    loop, and whether the process is still alive. *)
Record process : Type := mk_process {
  samplequeue : Samplequeue.t;
  writer : Writer.t;
  producer_calls : list call;
  consumer_calls : list call;
  producer : producer_at;
  consumer : consumer_at;
  exited : bool
}.

(** [main] up to the first iteration: the queue is default-constructed and
    the consumer thread opens ["sample.csv"]. *)
Definition start (cap : nat) (existing : list sample) : process :=
  mk_process (Samplequeue.empty cap) (Writer.open "sample.csv" existing) [] []
             AtSampleUsage AtPop false.

(** What can happen next, one call at a time: a call of one of the two
    threads returns, or a termination request arrives. The program installs
    no handler for such a request, so it ends the process where it stands,
    between any two calls. *)
Inductive event : Type :=
| Sample (data : sample)    (* [sample_usage()] returns [data], line 26 *)
| Push                      (* [samplequeue.push(data)] returns, line 27 *)
| Pop                       (* [q.pop()] returns, line 12 *)
| WriteSample               (* [writer.write_sample(data)] returns, line 13 *)
| Flush                     (* [writer.flush()] returns, line 14 *)
| Interrupt.

(** The loop of [write] (lines 11 to 15), one call at a time: pop, then
    [write_sample] of what was popped, then [flush], then pop again. While
    [pop] has nothing to deliver the thread stays inside the call, and the
    loop has no exit. *)
Definition write (e : event) (p : process) : option process :=
  match e, consumer p with
  | Pop, AtPop =>
      match Samplequeue.pop (samplequeue p) with
      | Samplequeue.Popped data q' =>
          Some (mk_process q' (writer p) (producer_calls p)
                  (consumer_calls p ++ [CallPop data])
                  (producer p) (AtWriteSample data) (exited p))
      | _ => None
      end
  | WriteSample, AtWriteSample data =>
      Some (mk_process (samplequeue p) (Writer.write_sample (writer p) data)
              (producer_calls p) (consumer_calls p ++ [CallWriteSample data])
              (producer p) (AtFlush data) (exited p))
  | Flush, AtFlush _ =>
      Some (mk_process (samplequeue p) (Writer.flush (writer p))
              (producer_calls p) (consumer_calls p ++ [CallFlush])
              (producer p) AtPop (exited p))
  | _, _ => None
  end.

(** The loop of [main] (lines 25 to 28), one call at a time:
    [sample_usage()], then [push] of its result, unconditionally. The push
    returns when the queue accepts the sample. *)
Definition main_loop (e : event) (p : process) : option process :=
  match e, producer p with
  | Sample data, AtSampleUsage =>
      Some (mk_process (samplequeue p) (writer p)
              (producer_calls p ++ [CallSampleUsage data]) (consumer_calls p)
              (AtPush data) (consumer p) (exited p))
  | Push, AtPush data =>
      match Samplequeue.push (samplequeue p) data with
      | Samplequeue.Pushed q' =>
          Some (mk_process q' (writer p)
                  (producer_calls p ++ [CallPush data]) (consumer_calls p)
                  AtSampleUsage (consumer p) (exited p))
      | _ => None
      end
  | _, _ => None
  end.

(** One event: a call of the thread it belongs to, at the place that
    thread has reached; after a termination request nothing happens any
    more. *)
Definition step (e : event) (p : process) : option process :=
  if exited p then None
  else match e with
       | Sample _ | Push => main_loop e p
       | Pop | WriteSample | Flush => write e p
       | Interrupt =>
           Some (mk_process (samplequeue p) (writer p) (producer_calls p)
                   (consumer_calls p) (producer p) (consumer p) true)
       end.

(** A run: the events in the order they happen; [None] when an event is
    scheduled that cannot happen in the state reached. *)
Fixpoint run (es : list event) (p : process) : option process :=
  match es with
  | [] => Some p
  | e :: es' =>
      match step e p with
      | Some p' => run es' p'
      | None => None
      end
  end.

(** Projections of the traces. *)
Definition samples_of (cs : list call) : list sample :=
  flat_map (fun c => match c with CallSampleUsage d => [d] | _ => [] end) cs.

Definition pops_of (cs : list call) : list sample :=
  flat_map (fun c => match c with CallPop d => [d] | _ => [] end) cs.

(** The calls of the consumer thread over complete iterations that popped
    the given samples. *)
Definition iterations (ds : list sample) : list call :=
  flat_map (fun d => [CallPop d; CallWriteSample d; CallFlush]) ds.

(** The calls already made of the iteration in progress. *)
Definition partial_iteration (c : consumer_at) : list call :=
  match c with
  | AtPop => []
  | AtWriteSample d => [CallPop d]
  | AtFlush d => [CallPop d; CallWriteSample d]
  end.

(** The sample the consumer has popped and not yet flushed to the log, and
    the part of it that sits in the writer's buffer. *)
Definition in_hand (c : consumer_at) : list sample :=
  match c with
  | AtPop => []
  | AtWriteSample d => [d]
  | AtFlush d => [d]
  end.

Definition unflushed (c : consumer_at) : list sample :=
  match c with
  | AtFlush d => [d]
  | _ => []
  end.

(** The call that ends the iteration in progress when only the flush is
    left to make. *)
Definition next_flush (c : consumer_at) : list call :=
  match c with
  | AtFlush _ => [CallFlush]
  | _ => []
  end.

(** The sample the producer has obtained and not yet pushed. *)
Definition holding (c : producer_at) : list sample :=
  match c with
  | AtSampleUsage => []
  | AtPush d => [d]
  end.

(** Everything sampled that is not yet a record of the log, oldest first:
    the sample in the consumer's hands, the queue, the sample in the
    producer's hands. *)
Definition pipeline (p : process) : list sample :=
  in_hand (consumer p) ++ Samplequeue.items (samplequeue p) ++ holding (producer p).

(** What holds of the process between any two calls: the queue is open,
    the writer has never been closed, the consumer's calls are whole
    iterations followed by the one in progress, the writer's buffer holds at
    most the record awaiting its flush, the log is what it was at start plus
    one record per complete iteration [ds], and the samples obtained are the
    logged ones followed by those still on their way. *)
Definition consistent (existing : list sample) (p : process) : Prop :=
  Samplequeue.closed (samplequeue p) = false /\
  Writer.closes (writer p) = 0%nat /\
  exists ds,
    consumer_calls p = iterations ds ++ partial_iteration (consumer p) /\
    Writer.buffered (writer p) = unflushed (consumer p) /\
    Writer.log (writer p) = existing ++ ds /\
    samples_of (producer_calls p) = ds ++ pipeline p.

(** Every [write_sample] in a trace of calls has [flush] as the very next
    call. *)
Fixpoint flush_follows_write (cs : list call) : bool :=
  match cs with
  | [] => true
  | CallWriteSample _ :: tl =>
      match tl with
      | CallFlush :: _ => flush_follows_write tl
      | _ => false
      end
  | _ :: tl => flush_follows_write tl
  end.

(** No [pop] in a trace happens while a written record awaits its flush:
    between a [write_sample] and the next [pop] there is a [flush]. *)
Fixpoint no_pop_while_unflushed (pending : bool) (cs : list call) : bool :=
  match cs with
  | [] => true
  | CallWriteSample _ :: tl => no_pop_while_unflushed true tl
  | CallFlush :: tl => no_pop_while_unflushed false tl
  | CallPop _ :: tl => negb pending && no_pop_while_unflushed pending tl
  | _ :: tl => no_pop_while_unflushed pending tl
  end.

(** What a schedule feeds the pipeline and takes out of it: the samples
    [sample_usage()] returns, and the number of flushes. *)
Definition sampled (es : list event) : list sample :=
  flat_map (fun e => match e with Sample d => [d] | _ => [] end) es.

Definition flushes (es : list event) : nat :=
  List.length (filter (fun e => match e with Flush => true | _ => false end) es).

(* ===================================================================== *)
(** ** Properties of the double arithmetic *)
(* ===================================================================== *)

Section DoubleFacts.

(** The library iterates the one-bit shift along a binary numeral; the
    same as iterating it that many times. *)
Lemma iter_pos_nat {A : Type} (f : A -> A) (p : positive) :
  forall x, SpecFloat.iter_pos f p x = Nat.iter (Pos.to_nat p) f x.
Proof.
  induction p as [p IH|p IH|]; intros x; cbn [SpecFloat.iter_pos].
  - rewrite !IH, Pos2Nat.inj_xI.
    rewrite <- Nat.iter_add, <- Nat.iter_succ_r. f_equal. lia.
  - rewrite !IH, Pos2Nat.inj_xO, <- Nat.iter_add. f_equal. lia.
  - reflexivity.
Qed.

(** [digits2_pos p] is the number of bits of [p], and the only such number. *)
Lemma digits2_bounds (p : positive) :
  2 ^ (Zpos (digits2_pos p) - 1) <= Zpos p < 2 ^ Zpos (digits2_pos p).
Proof.
  induction p as [p IH|p IH|]; cbn [digits2_pos].
  - rewrite Pos2Z.inj_succ.
    replace (Z.succ (Zpos (digits2_pos p)) - 1) with (Z.succ (Zpos (digits2_pos p) - 1)) by lia.
    rewrite !Z.pow_succ_r by lia. lia.
  - rewrite Pos2Z.inj_succ.
    replace (Z.succ (Zpos (digits2_pos p)) - 1) with (Z.succ (Zpos (digits2_pos p) - 1)) by lia.
    rewrite !Z.pow_succ_r by lia. lia.
  - cbn. lia.
Qed.

Lemma digits2_unique (p : positive) (j : Z) :
  2 ^ (j - 1) <= Zpos p < 2 ^ j -> Zpos (digits2_pos p) = j.
Proof.
  intros [Hlo Hhi]. pose proof (digits2_bounds p) as [Dlo Dhi].
  set (d := Zpos (digits2_pos p)) in *.
  assert (0 < d) by (unfold d; lia).
  assert (0 < j).
  { destruct (Z_lt_le_dec 0 j); [assumption|].
    exfalso. assert (2 ^ j <= 1); [|lia].
    destruct (Z.eq_dec j 0) as [->|]; [cbn; lia|].
    rewrite Z.pow_neg_r by lia. lia. }
  destruct (Z.lt_trichotomy d j) as [Hlt|[Heq|Hgt]]; [|assumption|]; exfalso.
  - assert (2 ^ d <= 2 ^ (j - 1)) by (apply Z.pow_le_mono_r; lia). lia.
  - assert (2 ^ j <= 2 ^ (d - 1)) by (apply Z.pow_le_mono_r; lia). lia.
Qed.

(** One step of the right shift on a non-negative mantissa. *)
Lemma shr_1_nonneg m r s :
  0 <= m ->
  shr_1 (Build_shr_record m r s) = Build_shr_record (m / 2) (Z.odd m) (r || s).
Proof.
  intros Hm. rewrite <- Z.div2_div.
  destruct m as [|[p|p|]|p]; try reflexivity. lia.
Qed.

Lemma pow2_succ k : 0 <= k -> 2 ^ (k + 1) = 2 * 2 ^ k.
Proof. intros H. now rewrite Z.pow_add_r, Z.pow_1_r, Z.mul_comm by lia. Qed.

Lemma shr_inv_iter n k :
  0 <= n -> shr_inv n k (Nat.iter k shr_1 (Build_shr_record n false false)).
Proof.
  intros Hn. induction k as [|k IH].
  - cbn. split; [exact Hn|]. exists 0. cbn. lia.
  - rewrite Nat.iter_succ. destruct (Nat.iter k shr_1 _) as [m r s].
    destruct IH as (Hm & rest & E & Hr & Hs). cbn [shr_m shr_r shr_s] in *.
    rewrite shr_1_nonneg by exact Hm. unfold shr_inv. cbn [shr_m shr_r shr_s].
    split; [apply Z.div_pos; lia|].
    exists ((if r then 2 ^ Z.of_nat k else 0) + rest).
    rewrite Nat2Z.inj_succ. unfold Z.succ.
    rewrite !pow2_succ in * by lia.
    pose proof (Z.div_mod m 2 ltac:(lia)) as Hdm.
    rewrite Zmod_odd in Hdm.
    assert (0 < 2 ^ Z.of_nat k) by (apply Z.pow_pos_nonneg; lia).
    set (P := 2 ^ Z.of_nat k) in *.
    repeat split.
    + destruct (Z.odd m), r; nia.
    + destruct r; lia.
    + destruct r; lia.
    + intros Hrs. apply orb_false_iff in Hrs. destruct Hrs as [-> Hs'].
      specialize (Hs Hs'). lia.
Qed.

(** Rounding to nearest after an exact shift: the result is within half a
    unit of the number. *)
Lemma round_near n k :
  0 <= n ->
  let mrs := Nat.iter k shr_1 (Build_shr_record n false false) in
  let r := round_nearest_even (shr_m mrs) (loc_of_shr_record mrs) in
  shr_m mrs = n / 2 ^ Z.of_nat k /\
  shr_m mrs <= r <= shr_m mrs + 1 /\
  - 2 ^ Z.of_nat k <= 2 * n - 2 ^ (Z.of_nat k + 1) * r <= 2 ^ Z.of_nat k.
Proof.
  intros Hn mrs r. pose proof (shr_inv_iter n k Hn) as H. fold mrs in H.
  unfold r. clear r. destruct mrs as [m rb sb].
  destruct H as (Hm & rest & E & Hr & Hs). cbn [shr_m shr_r shr_s] in *.
  rewrite pow2_succ in * by lia.
  assert (HP : 0 < 2 ^ Z.of_nat k) by (apply Z.pow_pos_nonneg; lia).
  set (P := 2 ^ Z.of_nat k) in *.
  assert (Hdiv : m = n / P).
  { apply (Z.div_unique n P m (n - P * m)); [|lia].
    left. destruct rb; nia. }
  split; [exact Hdiv|].
  destruct rb, sb; cbn [loc_of_shr_record round_nearest_even].
  - lia.
  - specialize (Hs eq_refl). destruct (Z.even m); lia.
  - lia.
  - specialize (Hs eq_refl). lia.
Qed.

(** Whatever the round and sticky bits, [k] steps divide the mantissa by
    [2^k]. *)
Lemma shr_m_iter k : forall m r s,
  0 <= m ->
  shr_m (Nat.iter k shr_1 (Build_shr_record m r s)) = m / 2 ^ Z.of_nat k.
Proof.
  induction k as [|k IH]; intros m r s Hm.
  - cbn. now rewrite Z.div_1_r.
  - rewrite Nat.iter_succ_r, shr_1_nonneg by exact Hm.
    rewrite IH by (apply Z.div_pos; lia).
    rewrite Nat2Z.inj_succ. unfold Z.succ. rewrite pow2_succ by lia.
    rewrite Z.div_div by (try apply Z.pow_pos_nonneg; lia). reflexivity.
Qed.

Lemma round_nearest_even_bounds m l :
  m <= round_nearest_even m l <= m + 1.
Proof.
  destruct l as [|[| |]]; cbn; try lia. destruct (Z.even m); lia.
Qed.

Lemma shr_record_of_loc_m m l : shr_m (shr_record_of_loc m l) = m.
Proof. now destruct l as [|[| |]]. Qed.

Lemma shr_fexp_eq m e l k :
  Zdigits2 m - 53 = k -> -1074 <= e + k ->
  shr_fexp 53 1024 m e l = shr (shr_record_of_loc m l) e k.
Proof.
  intros H1 H2. unfold shr_fexp, fexp, emin. f_equal. lia.
Qed.

(** A mantissa of at least 53 bits, rounded to 53 bits: the mantissa is
    shifted right by the excess [k], rounded on the bits shifted out, and the
    result moves one binade up when the rounded mantissa reaches [2^53]. *)
Lemma binary_round_aux_rounds (s : bool) (p : positive) (e : Z) (l : location) :
  let k := Zpos (digits2_pos p) - 53 in
  0 <= k -> -1074 <= e + k <= 970 ->
  let mrs := Nat.iter (Z.to_nat k) shr_1 (shr_record_of_loc (Zpos p) l) in
  let r := round_nearest_even (shr_m mrs) (loc_of_shr_record mrs) in
  shr_m mrs = Zpos p / 2 ^ k /\
  2 ^ 52 <= Zpos p / 2 ^ k < 2 ^ 53 /\
  binary_round_aux 53 1024 s (Zpos p) e l =
    if r <? 2 ^ 53 then S754_finite s (Z.to_pos r) (e + k)
    else S754_finite s 4503599627370496 (e + k + 1).
Proof.
  intros k Hk He mrs R.
  assert (Hm : shr_m mrs = Zpos p / 2 ^ k).
  { unfold mrs. destruct (shr_record_of_loc (Zpos p) l) as [m0 r0 s0] eqn:E.
    pose proof (shr_record_of_loc_m (Zpos p) l) as E0. rewrite E in E0.
    cbn in E0. subst m0. rewrite shr_m_iter by lia. now rewrite Z2Nat.id. }
  assert (Hrange : 2 ^ 52 <= Zpos p / 2 ^ k < 2 ^ 53).
  { pose proof (digits2_bounds p) as [Dlo Dhi].
    replace (Zpos (digits2_pos p)) with (53 + k) in Dhi by (unfold k; lia).
    replace (Zpos (digits2_pos p) - 1) with (52 + k) in Dlo by (unfold k; lia).
    rewrite Z.pow_add_r in Dlo, Dhi by lia.
    assert (0 < 2 ^ k) by (apply Z.pow_pos_nonneg; lia).
    split.
    - apply Z.div_le_lower_bound; lia.
    - apply Z.div_lt_upper_bound; lia. }
  pose proof (round_nearest_even_bounds (shr_m mrs) (loc_of_shr_record mrs)) as HR.
  fold R in HR. rewrite Hm in HR.
  split; [exact Hm|]. split; [exact Hrange|].
  unfold binary_round_aux.
  rewrite (shr_fexp_eq (Zpos p) e l k) by (cbn [Zdigits2]; unfold k; lia).
  assert (Hshr : shr (shr_record_of_loc (Zpos p) l) e k = (mrs, e + k)).
  { unfold shr, mrs. destruct k as [|kp|kp]; [|  |lia].
    - cbn. now rewrite Z.add_0_r.
    - now rewrite iter_pos_nat. }
  rewrite Hshr. fold R.
  destruct (Z.ltb_spec R (2 ^ 53)) as [Hlt|Hge].
  - destruct R as [|rp|rp] eqn:ER; try lia.
    assert (Hd : Zpos (digits2_pos rp) = 53) by (apply digits2_unique; lia).
    rewrite (shr_fexp_eq (Zpos rp) (e + k) loc_Exact 0)
      by (cbn [Zdigits2]; lia).
    cbn [shr shr_record_of_loc shr_m Z.to_pos].
    destruct (Z.leb_spec (e + k) (1024 - 53)); [reflexivity|lia].
  - assert (ER : R = 2 ^ 53) by lia. rewrite ER.
    rewrite (shr_fexp_eq (2 ^ 53) (e + k) loc_Exact 1)
      by (try reflexivity; lia).
    change (shr (shr_record_of_loc (2 ^ 53) loc_Exact) (e + k) 1)
      with (Build_shr_record (2 ^ 52) false false, e + k + 1).
    cbn [shr_m]. change (2 ^ 52) with (Zpos 4503599627370496).
    cbv iota beta.
    destruct (Z.leb_spec (e + k + 1) (1024 - 53)); [reflexivity|lia].
Qed.

(** The same, keeping of the rounded mantissa [r] only that it is the
    truncated one or its successor, and how far it is from the exact one
    when nothing was lost before. *)
Lemma binary_round_aux_normal (s : bool) (p : positive) (e : Z) (l : location) :
  let k := Zpos (digits2_pos p) - 53 in
  0 <= k -> -1074 <= e + k <= 970 ->
  exists r,
    Zpos p / 2 ^ k <= r <= Zpos p / 2 ^ k + 1 /\
    2 ^ 52 <= Zpos p / 2 ^ k < 2 ^ 53 /\
    (l = loc_Exact -> - 2 ^ k <= 2 * Zpos p - 2 * 2 ^ k * r <= 2 ^ k) /\
    binary_round_aux 53 1024 s (Zpos p) e l =
      if r <? 2 ^ 53 then S754_finite s (Z.to_pos r) (e + k)
      else S754_finite s 4503599627370496 (e + k + 1).
Proof.
  intros k Hk He.
  destruct (binary_round_aux_rounds s p e l Hk He) as (Hm & Hrange & Hbra).
  fold k in Hm, Hrange, Hbra.
  set (mrs := Nat.iter (Z.to_nat k) shr_1 (shr_record_of_loc (Zpos p) l)) in *.
  set (R := round_nearest_even (shr_m mrs) (loc_of_shr_record mrs)) in *.
  pose proof (round_nearest_even_bounds (shr_m mrs) (loc_of_shr_record mrs)) as HR.
  fold R in HR. rewrite Hm in HR.
  exists R. split; [exact HR|]. split; [exact Hrange|]. split; [|exact Hbra].
  intros ->. pose proof (round_near (Zpos p) (Z.to_nat k) ltac:(lia)) as Hnear.
  cbv zeta in Hnear. destruct Hnear as (_ & _ & Hnear).
  rewrite Z2Nat.id, pow2_succ in Hnear by lia. exact Hnear.
Qed.

Lemma binary_round_aux_exact (s : bool) (p : positive) (e : Z) :
  Zpos (digits2_pos p) = 53 -> -1074 <= e <= 970 ->
  binary_round_aux 53 1024 s (Zpos p) e loc_Exact = S754_finite s p e.
Proof.
  intros Hd He.
  destruct (binary_round_aux_normal s p e loc_Exact)
    as (r & Hr & Hrange & Hnear & Hbra); try lia.
  specialize (Hnear eq_refl).
  rewrite Hd in Hr, Hrange, Hnear, Hbra. change (53 - 53) with 0 in *.
  rewrite Z.pow_0_r in *. rewrite Z.div_1_r in *.
  assert (r = Zpos p) by lia. subst r.
  destruct (Z.ltb_spec (Zpos p) (2 ^ 53)); [|lia].
  rewrite Hbra. cbn [Z.to_pos]. now rewrite Z.add_0_r.
Qed.

Lemma pos_iter_xO (j p : positive) :
  Zpos (Pos.iter xO p j) = Zpos p * 2 ^ Zpos j.
Proof.
  induction j as [|j IH] using Pos.peano_ind.
  - cbn. lia.
  - rewrite Pos.iter_succ, Pos2Z.inj_succ, Z.pow_succ_r by lia.
    rewrite Pos2Z.inj_xO, IH. lia.
Qed.

(** [double(n)] for a positive 64-bit [n]: up to 53 bits the integer is
    aligned and kept; beyond, it is shifted right and rounded to nearest. *)
Lemma of_u64_converts (n : Z) :
  0 < n < 2 ^ 64 ->
  exists m e v, Double.of_u64 n = S754_finite false m e /\ converts_to n m e v.
Proof.
  intros Hn. destruct n as [|p|p]; try lia.
  unfold Double.of_u64, Double.prec, Double.emax, binary_normalize, binary_round.
  pose proof (digits2_bounds p) as [Dlo Dhi].
  set (d := Zpos (digits2_pos p)) in *.
  assert (Hd0 : 0 < d) by (unfold d; lia).
  assert (Hd64 : d <= 64).
  { destruct (Z_le_gt_dec d 64); [assumption|exfalso].
    assert (2 ^ 64 <= 2 ^ (d - 1)) by (apply Z.pow_le_mono_r; lia). lia. }
  destruct (Z_lt_le_dec d 53) as [Hsmall|Hlarge].
  - (* fewer than 53 bits: aligned to 53 bits, exact *)
    assert (Hf : fexp 53 1024 (d + 0) = d - 53) by (unfold fexp, emin; lia).
    rewrite Hf. unfold shl_align.
    destruct (d - 53 - 0) as [|j|j] eqn:Ej; try lia.
    pose proof (pos_iter_xO j p) as Hm.
    set (mz := Pos.iter xO p j) in *.
    assert (Hj : Zpos j = 53 - d) by lia.
    assert (Hpow : 2 ^ (d - 1) * 2 ^ Zpos j = 2 ^ 52 /\ 2 ^ d * 2 ^ Zpos j = 2 ^ 53).
    { rewrite <- !Z.pow_add_r by lia. split; f_equal; lia. }
    assert (Hj0 : 0 < 2 ^ Zpos j) by (apply Z.pow_pos_nonneg; lia).
    assert (Hmz : 2 ^ 52 <= Zpos mz < 2 ^ 53) by nia.
    assert (Hdz : Zpos (digits2_pos mz) = 53) by (apply digits2_unique; lia).
    rewrite binary_round_aux_exact by lia.
    exists mz, (d - 53), (Zpos p). split; [reflexivity|].
    unfold converts_to. split; [lia|]. split; [lia|]. split.
    + rewrite Hm. replace (d - 53 + 52) with (d - 1) by lia.
      rewrite <- (proj1 Hpow). ring.
    + left. split; [|reflexivity].
      assert (2 ^ d <= 2 ^ 53) by (apply Z.pow_le_mono_r; lia). lia.
  - (* 53 bits or more: rounded to nearest, ties to even *)
    assert (Hf : fexp 53 1024 (d + 0) = d - 53) by (unfold fexp, emin; lia).
    rewrite Hf. unfold shl_align.
    destruct (d - 53 - 0) as [|j|j] eqn:Ej; try lia.
    + rewrite binary_round_aux_exact by (fold d; lia).
      assert (2 ^ d = 2 ^ 53 /\ 2 ^ (d - 1) = 2 ^ 52) as [E1 E2]
        by (split; f_equal; lia).
      exists p, 0, (Zpos p). split; [reflexivity|].
      unfold converts_to. split; [lia|]. split; [lia|]. split; [reflexivity|].
      left. split; [lia|reflexivity].
    + destruct (binary_round_aux_normal false p 0 loc_Exact)
        as (R & HR & Hrange & Hnear & Hbra); try (fold d; lia).
      specialize (Hnear eq_refl).
      fold d in HR, Hrange, Hnear, Hbra.
      set (k := d - 53) in *.
      assert (Hk : 1 <= k <= 11) by lia.
      assert (HP : 0 < 2 ^ k) by (apply Z.pow_pos_nonneg; lia).
      assert (Hdk : 2 ^ (d - 1) = 2 ^ (52 + k) /\ 2 ^ d = 2 ^ (53 + k))
        by (split; f_equal; unfold k; lia).
      destruct Hdk as [Hdk1 Hdk2]. rewrite Hdk1 in Dlo. rewrite Hdk2 in Dhi.
      rewrite Hbra. rewrite Z.add_0_l.
      destruct (Z.ltb_spec R (2 ^ 53)) as [Hlt|Hge].
      * exists (Z.to_pos R), k, (R * 2 ^ k). split; [reflexivity|].
        unfold converts_to. rewrite Z2Pos.id by lia.
        split; [lia|]. split; [lia|]. split.
        -- rewrite Z.pow_add_r by lia. ring.
        -- right. exists k, R. repeat split; lia.
      * exists 4503599627370496%positive, (k + 1), (R * 2 ^ k).
        split; [reflexivity|].
        assert (ER : R = 2 ^ 53) by lia.
        unfold converts_to. split; [lia|]. split; [lia|]. split.
        -- rewrite ER. rewrite !Z.pow_add_r by lia.
           change (Zpos 4503599627370496) with (2 ^ 52).
           rewrite Z.pow_1_r. change (2 ^ 53) with (2 ^ 52 * 2). ring.
        -- right. exists k, R. repeat split; lia.
Qed.

Lemma pow2_split a k : 0 <= a -> 0 <= k -> 2 ^ (a + k) = 2 ^ a * 2 ^ k.
Proof. intros. now rewrite Z.pow_add_r. Qed.

(** The values of the doubles of two integers are ordered as the integers. *)
Lemma converts_to_mono n1 n2 m1 e1 v1 m2 e2 v2 :
  0 < n1 < n2 ->
  converts_to n1 m1 e1 v1 -> converts_to n2 m2 e2 v2 -> v1 <= v2.
Proof.
  intros Hn (_ & _ & _ & H1) (_ & _ & _ & H2).
  destruct H1 as [[Hs1 ->]|(k1 & r1 & Hk1 & Hn1 & -> & Hr1 & Hnear1)];
  destruct H2 as [[Hs2 ->]|(k2 & r2 & Hk2 & Hn2 & -> & Hr2 & Hnear2)].
  - lia.
  - rewrite pow2_split in Hn2 by lia.
    assert (0 < 2 ^ k2) by (apply Z.pow_pos_nonneg; lia).
    destruct (Z.eq_dec k2 0) as [->|Hk].
    + change (2 ^ 0) with 1 in *. lia.
    + assert (2 ^ 1 <= 2 ^ k2) by (apply Z.pow_le_mono_r; lia).
      change (2 ^ 1) with 2 in *. nia.
  - assert (k1 = 0).
    { destruct (Z.eq_dec k1 0) as [|Hk]; [assumption|exfalso].
      assert (2 ^ 53 <= 2 ^ (52 + k1)) by (apply Z.pow_le_mono_r; lia). lia. }
    subst k1. change (2 ^ 0) with 1 in *. lia.
  - assert (Hle : k1 <= k2).
    { assert (2 ^ (52 + k1) < 2 ^ (53 + k2)) as Hlt by lia.
      apply Z.pow_lt_mono_r_iff in Hlt; lia. }
    assert (HP1 : 0 < 2 ^ k1) by (apply Z.pow_pos_nonneg; lia).
    assert (HP2 : 0 < 2 ^ k2) by (apply Z.pow_pos_nonneg; lia).
    destruct (Z.eq_dec k1 k2) as [->|Hne].
    + set (P := 2 ^ k2) in *.
      assert (r1 <= r2); [|nia].
      destruct (Z_le_gt_dec r1 r2) as [|Hgt]; [assumption|exfalso].
      assert (r2 * P + P <= r1 * P) by nia. lia.
    + assert (2 ^ (k1 + 1) <= 2 ^ k2) by (apply Z.pow_le_mono_r; lia).
      rewrite pow2_succ in * by lia.
      set (P1 := 2 ^ k1) in *. set (P2 := 2 ^ k2) in *.
      assert (r1 * P1 <= 2 ^ 53 * P1) by nia.
      assert (2 ^ 52 * P2 <= r2 * P2) by nia.
      lia.
Qed.

(** The order on exponent and mantissa is the order of the values. *)
Lemma normal_le_of_values m1 e1 v1 m2 e2 v2 :
  2 ^ 52 <= Zpos m1 < 2 ^ 53 -> 2 ^ 52 <= Zpos m2 < 2 ^ 53 ->
  -52 <= e1 -> -52 <= e2 ->
  Zpos m1 * 2 ^ (e1 + 52) = v1 * 2 ^ 52 ->
  Zpos m2 * 2 ^ (e2 + 52) = v2 * 2 ^ 52 ->
  v1 <= v2 -> normal_le m1 e1 m2 e2.
Proof.
  intros Hm1 Hm2 He1 He2 E1 E2 Hv. unfold normal_le.
  assert (HP2 : 0 < 2 ^ (e2 + 52)) by (apply Z.pow_pos_nonneg; lia).
  destruct (Z.lt_trichotomy e1 e2) as [Hlt|[Heq|Hgt]].
  - now left.
  - right. split; [assumption|]. subst e2.
    set (P := 2 ^ (e1 + 52)) in *. nia.
  - exfalso.
    assert (2 ^ (e2 + 52 + 1) <= 2 ^ (e1 + 52)) by (apply Z.pow_le_mono_r; lia).
    rewrite pow2_succ in * by lia.
    set (P1 := 2 ^ (e1 + 52)) in *. set (P2 := 2 ^ (e2 + 52)) in *.
    assert (2 ^ 52 * P1 <= Zpos m1 * P1) by nia.
    assert (Zpos m2 * P2 < 2 ^ 53 * P2) by nia.
    lia.
Qed.

(** The conversion is monotone. *)
Lemma of_u64_le n1 n2 :
  0 < n1 <= n2 -> n2 < 2 ^ 64 ->
  exists m1 e1 m2 e2,
    Double.of_u64 n1 = S754_finite false m1 e1 /\
    Double.of_u64 n2 = S754_finite false m2 e2 /\
    2 ^ 52 <= Zpos m1 < 2 ^ 53 /\ 2 ^ 52 <= Zpos m2 < 2 ^ 53 /\
    -52 <= e1 <= 12 /\ -52 <= e2 <= 12 /\
    normal_le m1 e1 m2 e2.
Proof.
  intros Hn1 Hn2.
  destruct (of_u64_converts n2 ltac:(lia)) as (m2 & e2 & v2 & E2 & C2).
  destruct (Z.eq_dec n1 n2) as [->|Hne].
  - exists m2, e2, m2, e2. destruct C2 as (Hm & He & _).
    repeat split; try assumption; try lia. right. split; lia.
  - destruct (of_u64_converts n1 ltac:(lia)) as (m1 & e1 & v1 & E1 & C1).
    exists m1, e1, m2, e2.
    pose proof (converts_to_mono n1 n2 m1 e1 v1 m2 e2 v2 ltac:(lia) C1 C2) as Hv.
    destruct C1 as (Hm1 & He1 & Ev1 & _). destruct C2 as (Hm2 & He2 & Ev2 & _).
    repeat split; try assumption; try lia.
    eapply normal_le_of_values; eauto; lia.
Qed.

(** The integer division at the heart of [/]: for two 53-bit mantissas the
    dividend is shifted left by 53 bits. *)
Lemma SFdiv_core_normal (m1 m2 : positive) (e1 e2 : Z) :
  Zpos (digits2_pos m1) = 53 -> Zpos (digits2_pos m2) = 53 ->
  -1000 <= e1 - e2 ->
  SFdiv_core_binary 53 1024 (Zpos m1) e1 (Zpos m2) e2 =
    ((Zpos m1 * 2 ^ 53) / Zpos m2, e1 - e2 - 53,
     new_location (Zpos m2) ((Zpos m1 * 2 ^ 53) mod Zpos m2)).
Proof.
  intros D1 D2 He. unfold SFdiv_core_binary. cbn [Zdigits2].
  rewrite D1, D2.
  assert (E : Z.min (fexp 53 1024 (53 + e1 - (53 + e2))) (e1 - e2) = e1 - e2 - 53)
    by (unfold fexp, emin; lia).
  rewrite E.
  replace (e1 - e2 - (e1 - e2 - 53)) with 53 by lia.
  rewrite Z.shiftl_mul_pow2 by lia.
  unfold Z.div, Z.modulo.
  destruct (Z.div_eucl (Zpos m1 * 2 ^ 53) (Zpos m2)) as [q r]. reflexivity.
Qed.

(** The quotient of two normal positive doubles, the first no larger than the
    second, is a normal double no larger than 1.0. *)
Lemma SFdiv_normal_le (m1 m2 : positive) (e1 e2 : Z) :
  2 ^ 52 <= Zpos m1 < 2 ^ 53 -> 2 ^ 52 <= Zpos m2 < 2 ^ 53 ->
  -52 <= e1 <= 12 -> -52 <= e2 <= 12 ->
  normal_le m1 e1 m2 e2 ->
  exists m e,
    SFdiv 53 1024 (S754_finite false m1 e1) (S754_finite false m2 e2)
      = S754_finite false m e /\
    2 ^ 52 <= Zpos m < 2 ^ 53 /\
    normal_le m e 4503599627370496 (-52).
Proof.
  intros Hm1 Hm2 He1 He2 Hle.
  assert (D1 : Zpos (digits2_pos m1) = 53) by (apply digits2_unique; lia).
  assert (D2 : Zpos (digits2_pos m2) = 53) by (apply digits2_unique; lia).
  unfold SFdiv. rewrite SFdiv_core_normal by lia. cbn [xorb].
  set (q := Zpos m1 * 2 ^ 53 / Zpos m2).
  set (l := new_location (Zpos m2) ((Zpos m1 * 2 ^ 53) mod Zpos m2)).
  assert (Hq : 2 ^ 52 <= q < 2 ^ 54).
  { unfold q. split.
    - apply Z.div_le_lower_bound; nia.
    - apply Z.div_lt_upper_bound; nia. }
  destruct q as [|qp|qp] eqn:Eq; try lia.
  destruct (Z_lt_le_dec (Zpos qp) (2 ^ 53)) as [Hq53|Hq54].
  - (* a quotient of 53 bits *)
    assert (Dq : Zpos (digits2_pos qp) = 53) by (apply digits2_unique; lia).
    destruct (binary_round_aux_normal false qp (e1 - e2 - 53) l)
      as (R & HR & _ & _ & Hbra); try lia.
    rewrite Dq in HR, Hbra. change (53 - 53) with 0 in *.
    rewrite Z.pow_0_r, Z.div_1_r in HR.
    rewrite Hbra.
    destruct (Z.ltb_spec R (2 ^ 53)) as [Hlt|Hge].
    + exists (Z.to_pos R), (e1 - e2 - 53 + 0). split; [reflexivity|].
      rewrite Z2Pos.id by lia. split; [lia|].
      left. destruct Hle as [Hlt'|[Heq _]]; lia.
    + exists 4503599627370496%positive, (e1 - e2 - 53 + 0 + 1).
      split; [reflexivity|]. split; [lia|].
      destruct Hle as [Hlt'|[Heq _]]; [left; lia|right; split; lia].
  - (* a quotient of 54 bits *)
    assert (Dq : Zpos (digits2_pos qp) = 54) by (apply digits2_unique; lia).
    destruct (binary_round_aux_normal false qp (e1 - e2 - 53) l)
      as (R & HR & Hrange & Hnear & Hbra); try lia.
    rewrite Dq in HR, Hrange, Hnear, Hbra. change (54 - 53) with 1 in *.
    rewrite Hbra.
    destruct Hle as [Hlt'|[Heq Hmle]].
    + destruct (Z.ltb_spec R (2 ^ 53)) as [Hlt|Hge].
      * exists (Z.to_pos R), (e1 - e2 - 53 + 1). split; [reflexivity|].
        rewrite Z2Pos.id by lia. split; [lia|].
        left. lia.
      * exists 4503599627370496%positive, (e1 - e2 - 53 + 1 + 1).
        split; [reflexivity|]. split; [lia|].
        destruct (Z.eq_dec (e1 - e2 - 53 + 1 + 1) (-52)) as [E|E];
          [right; split; lia|left; lia].
    + (* equal exponents: the mantissas are equal and the quotient is 1.0 *)
      subst e2.
      assert (Hmeq : Zpos m1 = Zpos m2).
      { assert (Zpos m1 * 2 ^ 53 / Zpos m2 <= 2 ^ 53) as Hup
          by (apply Z.div_le_upper_bound; nia).
        destruct (Z.eq_dec (Zpos m1) (Zpos m2)) as [|Hne]; [assumption|exfalso].
        assert (Zpos m1 * 2 ^ 53 / Zpos m2 < 2 ^ 53)
          by (apply Z.div_lt_upper_bound; nia).
        fold q in H. lia. }
      assert (Hl : l = loc_Exact).
      { unfold l. rewrite Hmeq, Z.mul_comm, Z_mod_mult.
        unfold new_location, new_location_even, new_location_odd.
        now destruct (Z.even (Zpos m2)). }
      assert (Hqp : Zpos qp = 2 ^ 53).
      { rewrite <- Eq. unfold q. rewrite Hmeq, Z.mul_comm. apply Z_div_mult. lia. }
      specialize (Hnear Hl). rewrite Hqp in Hnear.
      assert (R = 2 ^ 52) by lia. subst R.
      exists 4503599627370496%positive, (e1 - e1 - 53 + 1).
      split; [reflexivity|]. split; [lia|]. right. split; lia.
Qed.

(** A normal double at or below 1.0 in that order stands for a rational in
    [0, 1]. *)
Lemma value_normal_le_one (m : positive) (e : Z) :
  2 ^ 52 <= Zpos m < 2 ^ 53 ->
  normal_le m e 4503599627370496 (-52) ->
  exists v, Double.value (S754_finite false m e) = Some v /\ (0 <= v <= 1)%Q.
Proof.
  intros Hm Hle. eexists. split; [reflexivity|].
  assert (He : e <= -52) by (destruct Hle as [|[? _]]; lia).
  destruct e as [|ep|ep]; try lia.
  assert (HP : 0 < 2 ^ Zpos ep) by (apply Z.pow_pos_nonneg; lia).
  assert (Hmp : Zpos m <= 2 ^ Zpos ep).
  { destruct Hle as [Hlt|[Heq Hmle]].
    - assert (2 ^ 53 <= 2 ^ Zpos ep) by (apply Z.pow_le_mono_r; lia). lia.
    - assert (Zpos ep = 52) as -> by lia. exact Hmle. }
  assert (E : (2 ^ Zneg ep == 1 # (2 ^ ep)%positive)%Q).
  { change 2%Q with (2 # 1)%Q. rewrite (Qpower_decomp_neg_pos ep 2 1).
    now rewrite Z.pow_1_l by lia. }
  rewrite Qmult_1_l, E.
  unfold Qle, Qmult, inject_Z. cbn [Qnum Qden].
  rewrite Pos.mul_1_l, Pos2Z.inj_pow. split; lia.
Qed.

End DoubleFacts.

(* ===================================================================== *)
(** ** Properties of the sampler *)
(* ===================================================================== *)

Section U64Facts.

Lemma u64_wrap_small z : U64.in_range z -> U64.wrap z = z.
Proof. unfold U64.in_range, U64.wrap. intros H. now apply Z.mod_small. Qed.

Lemma u64_wrap_range z : U64.in_range (U64.wrap z).
Proof.
  unfold U64.in_range, U64.wrap. apply Z.mod_pos_bound. reflexivity.
Qed.

Lemma u64_add_wrap_l a b : U64.add (U64.wrap a) b = U64.wrap (a + b).
Proof. unfold U64.add, U64.wrap. now rewrite Zplus_mod_idemp_l. Qed.

Lemma u64_add_wrap_both a b : U64.add (U64.wrap a) (U64.wrap b) = U64.wrap (a + b).
Proof. unfold U64.add, U64.wrap. now rewrite <- Zplus_mod. Qed.

(** Subtraction of counters: exact when the counter advanced, 2^64 too large
    when it went back. *)
Lemma u64_sub_forward x y :
  U64.in_range x -> U64.in_range y -> x <= y -> U64.sub y x = y - x.
Proof.
  unfold U64.in_range, U64.sub. intros Hx Hy Hle.
  apply u64_wrap_small. unfold U64.in_range. lia.
Qed.

Lemma u64_sub_backward x y :
  U64.in_range x -> U64.in_range y -> y < x ->
  U64.sub y x = y - x + U64.modulus.
Proof.
  unfold U64.in_range, U64.sub, U64.wrap. intros Hx Hy Hlt.
  rewrite <- (Z.mod_add (y - x) 1 U64.modulus) by (unfold U64.modulus; lia).
  rewrite Z.mul_1_l. apply Z.mod_small. lia.
Qed.

End U64Facts.

(** Line 28 computes the sum of the seven deltas modulo 2^64. *)
Lemma total_delta_is_sum a b : total_delta a b = spec_total a b.
Proof.
  unfold total_delta, spec_total, deltas. cbn [fold_right].
  unfold U64.add at 6. rewrite !u64_add_wrap_l.
  f_equal. ring.
Qed.

Lemma deltas_all_zero_inv a b :
  deltas_all_zero a b -> total_delta a b = 0 /\ idle_delta a b = 0.
Proof.
  unfold deltas_all_zero, deltas. intros H.
  repeat match goal with
         | H : Forall _ (_ :: _) |- _ => inversion H; subst; clear H
         end.
  split; [|assumption].
  unfold total_delta.
  repeat match goal with H : _ = 0 |- _ => rewrite H; clear H end.
  reflexivity.
Qed.

(** C1. When every per-field delta is zero the code makes no special case:
    it divides [double(0)] by [double(0)], and the value returned is the NaN
    of 0.0/0.0, which is not 0.0 and lies outside [0.0, 1.0]. *)
Theorem sample_cpu_usage_frozen_counters (a b : cpusnap) :
  deltas_all_zero a b ->
  sample_cpu_usage a b = Double.div Double.zero Double.zero /\
  sample_cpu_usage a b = S754_nan /\
  SFeqb (sample_cpu_usage a b) Double.zero = false /\
  Double.in_unit_interval (sample_cpu_usage a b) = false.
Proof.
  intros H. apply deltas_all_zero_inv in H. destruct H as [Ht Hi].
  unfold sample_cpu_usage. rewrite Ht, Hi.
  repeat split.
Qed.

Lemma sample_cpu_usage_frozen_counters_witness :
  deltas_all_zero (snap_user_idle 100 900) (snap_user_idle 100 900) /\
  sample_cpu_usage (snap_user_idle 100 900) (snap_user_idle 100 900) = S754_nan.
Proof.
  assert (H : deltas_all_zero (snap_user_idle 100 900) (snap_user_idle 100 900)).
  { unfold deltas_all_zero, deltas. repeat constructor. }
  split; [exact H|].
  exact (proj1 (proj2 (sample_cpu_usage_frozen_counters _ _ H))).
Defined.

(** C2, as the design document words it, fails: with an iowait delta the
    code's value differs from [(total - (idle + iowait)) / total]. *)
Lemma spec_utilization_differs :
  ~ (forall a b : cpusnap,
        cpusnap_wf a -> cpusnap_wf b -> total_delta a b <> 0 ->
        sample_cpu_usage a b = spec_utilization a b).
Proof.
  intros H.
  specialize (H (mk_cpusnap 0 0 0 0 0 0 0) (mk_cpusnap 2 0 0 1 1 0 0)).
  assert (Hwf : forall c, c = mk_cpusnap 0 0 0 0 0 0 0 \/ c = mk_cpusnap 2 0 0 1 1 0 0 ->
                          cpusnap_wf c).
  { intros c [-> | ->]; unfold cpusnap_wf, U64.in_range, U64.modulus; cbn; lia. }
  specialize (H (Hwf _ (or_introl eq_refl)) (Hwf _ (or_intror eq_refl))).
  assert (Hne : total_delta (mk_cpusnap 0 0 0 0 0 0 0) (mk_cpusnap 2 0 0 1 1 0 0) <> 0)
    by (vm_compute; discriminate).
  specialize (H Hne). vm_compute in H. discriminate H.
Qed.

(** C2, amended. The utilization is [(total - idle_delta) / total]: [total]
    is the sum of the seven deltas modulo 2^64, each delta the unsigned
    difference of the two readings, and only the idle delta is taken off;
    the iowait delta counts as busy time. *)
Theorem sample_cpu_usage_formula (a b : cpusnap) :
  sample_cpu_usage a b = busy_utilization a b /\
  total_delta a b = U64.wrap
    ((user_time b - user_time a) + (nice_time b - nice_time a) +
     (system_kernel_time b - system_kernel_time a) + (idle_time b - idle_time a) +
     (iowait_time b - iowait_time a) + (irq_time b - irq_time a) +
     (softirq_time b - softirq_time a)).
Proof.
  split.
  - unfold sample_cpu_usage, busy_utilization.
    now rewrite total_delta_is_sum.
  - unfold total_delta, user_delta, nice_delta, system_delta, idle_delta,
      iowait_delta, irq_delta, softirq_delta.
    unfold U64.sub. now rewrite !u64_add_wrap_both.
Qed.

(** Where the iowait counter stands still the two formulas agree. *)
Lemma sample_cpu_usage_no_iowait (a b : cpusnap) :
  iowait_delta a b = 0 -> sample_cpu_usage a b = spec_utilization a b.
Proof.
  intros H. unfold sample_cpu_usage, spec_utilization, spec_idle_total.
  rewrite total_delta_is_sum, H.
  unfold U64.add. rewrite Z.add_0_r.
  rewrite (u64_wrap_small (idle_delta a b)); [reflexivity|].
  apply u64_wrap_range.
Qed.

(** Each of the seven deltas against its counter: the difference modulo
    2^64, exact when the counter advanced, 2^64 minus the drop when it went
    back. *)
Lemma deltas_wrap_each (a b : cpusnap) :
  cpusnap_wf a -> cpusnap_wf b ->
  forall (field : cpusnap -> Z) (delta : cpusnap -> cpusnap -> Z),
    In (field, delta)
       [ (user_time, user_delta); (nice_time, nice_delta);
         (system_kernel_time, system_delta); (idle_time, idle_delta);
         (iowait_time, iowait_delta); (irq_time, irq_delta);
         (softirq_time, softirq_delta) ] ->
    delta a b = (field b - field a) mod 2 ^ 64 /\
    (field a <= field b -> delta a b = field b - field a) /\
    (field b < field a ->
       delta a b = 2 ^ 64 - (field a - field b) /\ 2 ^ 64 - field a <= delta a b).
Proof.
  intros (Ha1 & Ha2 & Ha3 & Ha4 & Ha5 & Ha6 & Ha7)
         (Hb1 & Hb2 & Hb3 & Hb4 & Hb5 & Hb6 & Hb7) field delta Hin.
  assert (G : forall x y, U64.in_range x -> U64.in_range y ->
            U64.sub y x = (y - x) mod 2 ^ 64 /\
            (x <= y -> U64.sub y x = y - x) /\
            (y < x -> U64.sub y x = 2 ^ 64 - (x - y) /\ 2 ^ 64 - x <= U64.sub y x)).
  { intros x y Hx Hy. split; [reflexivity|]. split.
    - now apply u64_sub_forward.
    - intros Hlt. rewrite (u64_sub_backward x y Hx Hy Hlt).
      unfold U64.in_range, U64.modulus in *. lia. }
  cbn [In] in Hin.
  repeat (destruct Hin as [Hin | Hin]; [inversion Hin; subst; now apply G|]).
  contradiction.
Qed.

(** C4, as worded, fails: each counter advances and the total is not zero,
    yet the seven deltas add up past 2^64, the total wraps to 1 and the value
    returned is 2^63. *)
Lemma unit_interval_fails_when_total_wraps :
  ~ (forall a b : cpusnap,
        cpusnap_wf a -> cpusnap_wf b -> fields_non_decreasing a b ->
        total_delta a b <> 0 ->
        Double.in_unit_interval (sample_cpu_usage a b) = true).
Proof.
  intros H.
  specialize (H (snap_user_idle 0 0) (snap_user_idle (2 ^ 63 + 1) (2 ^ 63))).
  assert (H1 : cpusnap_wf (snap_user_idle 0 0))
    by (unfold cpusnap_wf, U64.in_range, U64.modulus; cbn; lia).
  assert (H2 : cpusnap_wf (snap_user_idle (2 ^ 63 + 1) (2 ^ 63)))
    by (unfold cpusnap_wf, U64.in_range, U64.modulus; cbn; lia).
  assert (H3 : fields_non_decreasing (snap_user_idle 0 0)
                 (snap_user_idle (2 ^ 63 + 1) (2 ^ 63)))
    by (unfold fields_non_decreasing; cbn; lia).
  assert (H4 : total_delta (snap_user_idle 0 0)
                 (snap_user_idle (2 ^ 63 + 1) (2 ^ 63)) <> 0)
    by (vm_compute; discriminate).
  specialize (H H1 H2 H3 H4). vm_compute in H. discriminate H.
Qed.

Lemma double_one : Double.one = S754_finite false 4503599627370496 (-52).
Proof. vm_compute. reflexivity. Qed.

(** The quotient of the doubles of two 64-bit integers, the first no larger
    than the second and the second not zero, lies in [0.0, 1.0]. *)
Lemma unit_interval_of_quotient (n d : Z) :
  0 <= n <= d -> 0 < d < 2 ^ 64 ->
  Double.in_unit_interval (Double.div (Double.of_u64 n) (Double.of_u64 d)) = true /\
  exists v,
    Double.value (Double.div (Double.of_u64 n) (Double.of_u64 d)) = Some v /\
    (0 <= v <= 1)%Q.
Proof.
  intros Hn Hd. unfold Double.in_unit_interval. rewrite double_one.
  destruct (Z.eq_dec n 0) as [->|Hn0].
  - destruct (of_u64_converts d Hd) as (m & e & v & E & _). rewrite E.
    cbn [Double.div Double.of_u64 binary_normalize SFdiv xorb].
    split; [reflexivity|]. exists 0%Q. split; [reflexivity|].
    split; apply Qle_bool_imp_le; reflexivity.
  - destruct (of_u64_le n d ltac:(lia) ltac:(lia))
      as (m1 & e1 & m2 & e2 & E1 & E2 & Hm1 & Hm2 & He1 & He2 & Hle).
    rewrite E1, E2.
    destruct (SFdiv_normal_le m1 m2 e1 e2 Hm1 Hm2 He1 He2 Hle)
      as (m & e & Ed & Hm & Hone).
    unfold Double.div, Double.prec, Double.emax. rewrite Ed.
    split; [|apply value_normal_le_one; assumption].
    unfold Double.leb, SFleb, Double.zero.
    cbn [SFcompare andb].
    destruct Hone as [Hlt|[-> Hmle]].
    + apply Z.compare_lt_iff in Hlt. rewrite Hlt. reflexivity.
    + rewrite Z.compare_refl.
      destruct (PosDef.Pos.compare_cont Eq m 4503599627370496) eqn:Ec;
        [reflexivity|reflexivity|].
      pose proof (proj1 (Pos.compare_gt_iff m 4503599627370496) Ec) as Hgt.
      lia.
Qed.

(** C4, amended. When every counter of the second reading is at least its
    value in the first, the seven deltas add up to less than 2^64, and the
    total is not zero, the value returned lies between 0.0 and 1.0
    inclusive, as the doubles compare and as the rational it stands for. *)
Theorem utilization_in_unit_interval (a b : cpusnap) :
  cpusnap_wf a -> cpusnap_wf b -> fields_non_decreasing a b ->
  total_fits a b -> total_delta a b <> 0 ->
  Double.in_unit_interval (sample_cpu_usage a b) = true /\
  exists v, Double.value (sample_cpu_usage a b) = Some v /\ (0 <= v <= 1)%Q.
Proof.
  intros Ha Hb Hnd Hfit Hne.
  assert (Hd : forall field delta,
    In (field, delta)
       [ (user_time, user_delta); (nice_time, nice_delta);
         (system_kernel_time, system_delta); (idle_time, idle_delta);
         (iowait_time, iowait_delta); (irq_time, irq_delta);
         (softirq_time, softirq_delta) ] ->
    field a <= field b -> delta a b = field b - field a).
  { intros field delta Hin. now apply (deltas_wrap_each a b Ha Hb field delta Hin). }
  destruct Hnd as (N1 & N2 & N3 & N4 & N5 & N6 & N7).
  pose proof (Hd user_time user_delta ltac:(cbn; tauto) N1) as D1.
  pose proof (Hd nice_time nice_delta ltac:(cbn; tauto) N2) as D2.
  pose proof (Hd system_kernel_time system_delta ltac:(cbn; tauto) N3) as D3.
  pose proof (Hd idle_time idle_delta ltac:(cbn; tauto) N4) as D4.
  pose proof (Hd iowait_time iowait_delta ltac:(cbn; tauto) N5) as D5.
  pose proof (Hd irq_time irq_delta ltac:(cbn; tauto) N6) as D6.
  pose proof (Hd softirq_time softirq_delta ltac:(cbn; tauto) N7) as D7.
  unfold total_fits, deltas in Hfit. cbn [fold_right] in Hfit.
  unfold U64.modulus in Hfit.
  assert (Ht : total_delta a b =
               user_delta a b + (nice_delta a b + (system_delta a b +
               (idle_delta a b + (iowait_delta a b + (irq_delta a b +
               (softirq_delta a b + 0))))))).
  { rewrite total_delta_is_sum. unfold spec_total, deltas. cbn [fold_right].
    apply u64_wrap_small. unfold U64.in_range, U64.modulus. lia. }
  unfold sample_cpu_usage.
  rewrite u64_sub_forward.
  - apply unit_interval_of_quotient; lia.
  - unfold U64.in_range, U64.modulus. lia.
  - unfold U64.in_range, U64.modulus. lia.
  - lia.
Qed.

Lemma utilization_in_unit_interval_witness :
  Double.in_unit_interval
    (sample_cpu_usage (snap_user_idle 100 900) (snap_user_idle 120 950)) = true.
Proof.
  refine (proj1 (utilization_in_unit_interval
                   (snap_user_idle 100 900) (snap_user_idle 120 950) _ _ _ _ _)).
  - unfold cpusnap_wf, U64.in_range, U64.modulus; cbn; lia.
  - unfold cpusnap_wf, U64.in_range, U64.modulus; cbn; lia.
  - unfold fields_non_decreasing; cbn; lia.
  - vm_compute. reflexivity.
  - vm_compute. discriminate.
Defined.

(* ===================================================================== *)
(** ** Properties of the queue *)
(* ===================================================================== *)

Module SamplequeueFacts.
Import Samplequeue.

Lemma apply_conserved o st : conserved st -> conserved (apply o st).
Proof.
  destruct st as [q h]. unfold conserved, apply. cbn [fst snd].
  intros H. destruct o as [s| |].
  - unfold push. destruct (closed q); [exact H|].
    destruct (capacity q <=? List.length (items q))%nat; [exact H|].
    cbn. now rewrite H, app_assoc.
  - unfold pop. destruct (items q) as [|x rest] eqn:E.
    + destruct (closed q); cbn; now rewrite ?E.
    + cbn. rewrite H. now rewrite <- app_assoc.
  - exact H.
Qed.

Lemma run_conserved ops : forall st, conserved st -> conserved (run ops st).
Proof.
  induction ops as [|o ops IH]; intros st H; [exact H|].
  cbn. apply IH. now apply apply_conserved.
Qed.

(** Once closed, always closed. *)
Lemma apply_closed o st : closed (fst st) = true -> closed (fst (apply o st)) = true.
Proof.
  destruct st as [q h]. cbn [fst]. intros H. destruct o as [s| |]; cbn.
  - unfold push. rewrite H. exact H.
  - unfold pop. destruct (items q); [rewrite H|]; cbn; exact H.
  - reflexivity.
Qed.

Lemma run_closed ops : forall st, closed (fst st) = true -> closed (fst (run ops st)) = true.
Proof.
  induction ops as [|o ops IH]; intros st H; [exact H|].
  cbn. apply IH. now apply apply_closed.
Qed.

(** Without a [close] among the calls the queue stays open and no pop is
    answered with the sentinel. *)
Lemma run_open ops : forall st,
  forallb (fun o => negb (is_close o)) ops = true ->
  closed (fst st) = false ->
  closed (fst (run ops st)) = false /\ sentinels (snd (run ops st)) = sentinels (snd st).
Proof.
  induction ops as [|o ops IH]; intros [q h] Hn Hc; [now split|].
  cbn [forallb] in Hn. apply andb_true_iff in Hn. destruct Hn as [Ho Hn].
  cbn [fst] in Hc.
  assert (Hs : closed (fst (apply o (q, h))) = false /\
               sentinels (snd (apply o (q, h))) = sentinels h).
  { destruct o as [s| |]; cbn in Ho |- *; try discriminate.
    - unfold push. rewrite Hc.
      destruct (capacity q <=? List.length (items q))%nat; cbn; now rewrite ?Hc.
    - unfold pop. destruct (items q); [rewrite Hc|]; cbn; now rewrite ?Hc. }
  change (run (o :: ops) (q, h)) with (run ops (apply o (q, h))).
  destruct (IH (apply o (q, h)) Hn (proj1 Hs)) as [H1 H2].
  split; [exact H1|]. rewrite H2. exact (proj2 Hs).
Qed.

(** Draining a closed queue hands out every buffered sample, oldest first,
    and then the sentinel. *)
Lemma drain_closed l : forall cap fuel,
  (List.length l < fuel)%nat ->
  drain fuel (mk l true cap) = (l, Some NoMoreData, mk [] true cap).
Proof.
  induction l as [|x l IH]; intros cap fuel Hf.
  - destruct fuel; [inversion Hf|]. reflexivity.
  - destruct fuel; [inversion Hf|]. cbn in Hf.
    cbn [drain pop items closed capacity].
    rewrite (IH cap fuel) by lia. reflexivity.
Qed.

End SamplequeueFacts.

(** C6. Three samples pushed in order into an empty queue with room for
    them come back from three successive pops in that order, leaving the
    queue empty; and over any interleaving of calls the samples accepted are
    exactly the samples handed out followed by the samples still buffered:
    no reordering, no duplication, no drop. *)
Theorem queue_is_fifo (cap : nat) (s1 s2 s3 : sample) :
  (3 <= cap)%nat ->
  Samplequeue.run
    [Samplequeue.OpPush s1; Samplequeue.OpPush s2; Samplequeue.OpPush s3;
     Samplequeue.OpPop; Samplequeue.OpPop; Samplequeue.OpPop]
    (Samplequeue.empty cap, Samplequeue.no_history)
  = (Samplequeue.empty cap,
     Samplequeue.mk_history [s1; s2; s3] [s1; s2; s3] 0 0) /\
  (forall ops,
     Samplequeue.conserved
       (Samplequeue.run ops (Samplequeue.empty cap, Samplequeue.no_history))).
Proof.
  intros Hcap. split.
  - destruct cap as [|[|[|cap]]]; try lia. reflexivity.
  - intros ops. apply SamplequeueFacts.run_conserved. reflexivity.
Qed.

Lemma queue_is_fifo_witness :
  Samplequeue.returned
    (snd (Samplequeue.run
       [Samplequeue.OpPush (mk_sample Double.zero 1);
        Samplequeue.OpPush (mk_sample Double.one 2);
        Samplequeue.OpPush (mk_sample Double.zero 3);
        Samplequeue.OpPop; Samplequeue.OpPop; Samplequeue.OpPop]
       (Samplequeue.empty 10, Samplequeue.no_history)))
  = [mk_sample Double.zero 1; mk_sample Double.one 2; mk_sample Double.zero 3].
Proof.
  rewrite (proj1 (queue_is_fifo 10 (mk_sample Double.zero 1)
                    (mk_sample Double.one 2) (mk_sample Double.zero 3)
                    ltac:(lia))).
  reflexivity.
Defined.

(** C7. Take any interleaving of pushes and pops on a fresh queue, and let
    N be the number of pushes that succeeded. No pop so far has been answered
    with the sentinel. After [close()], repeated pops deliver the remaining
    samples and then the sentinel "no more data", which is a result and not a
    failure; together with the samples handed out before, exactly the N
    accepted samples have come out, in the order they went in. *)
Theorem no_loss_after_close (cap : nat) (ops : list Samplequeue.op) :
  forallb (fun o => negb (Samplequeue.is_close o)) ops = true ->
  let st := Samplequeue.run ops (Samplequeue.empty cap, Samplequeue.no_history) in
  let q := Samplequeue.close (fst st) in
  forall fuel, (List.length (Samplequeue.items q) < fuel)%nat ->
  exists rest q',
    Samplequeue.drain fuel q = (rest, Some Samplequeue.NoMoreData, q') /\
    Samplequeue.items q' = [] /\
    Samplequeue.pop q' = Samplequeue.NoMoreData /\
    Samplequeue.sentinels (snd st) = 0%nat /\
    Samplequeue.returned (snd st) ++ rest = Samplequeue.accepted (snd st) /\
    List.length (Samplequeue.returned (snd st) ++ rest)
      = List.length (Samplequeue.accepted (snd st)).
Proof.
  intros Hops st q fuel Hfuel.
  assert (Hc : Samplequeue.conserved st)
    by (apply SamplequeueFacts.run_conserved; reflexivity).
  destruct (SamplequeueFacts.run_open ops
              (Samplequeue.empty cap, Samplequeue.no_history) Hops eq_refl)
    as [_ Hs].
  fold st in Hs. unfold Samplequeue.conserved in Hc.
  exists (Samplequeue.items (fst st)),
         (Samplequeue.mk [] true (Samplequeue.capacity (fst st))).
  unfold q, Samplequeue.close in *. cbn [Samplequeue.items] in Hfuel.
  rewrite (SamplequeueFacts.drain_closed _ _ fuel Hfuel).
  repeat split; try assumption; now rewrite Hc.
Qed.

Lemma no_loss_after_close_witness :
  exists rest q',
    Samplequeue.drain 3
      (Samplequeue.close
         (fst (Samplequeue.run
            [Samplequeue.OpPush (mk_sample Double.zero 1); Samplequeue.OpPop;
             Samplequeue.OpPush (mk_sample Double.one 2);
             Samplequeue.OpPush (mk_sample Double.zero 3)]
            (Samplequeue.empty 2, Samplequeue.no_history))))
    = (rest, Some Samplequeue.NoMoreData, q') /\
    rest = [mk_sample Double.one 2; mk_sample Double.zero 3].
Proof.
  destruct (no_loss_after_close 2
              [Samplequeue.OpPush (mk_sample Double.zero 1); Samplequeue.OpPop;
               Samplequeue.OpPush (mk_sample Double.one 2);
               Samplequeue.OpPush (mk_sample Double.zero 3)]
              eq_refl 3%nat ltac:(cbn; lia))
    as (rest & q' & Hd & _).
  exists rest, q'. split; [exact Hd|].
  cbn in Hd. now inversion Hd.
Defined.

(** C8. Whatever calls follow a [close()], a push is answered with
    [QueueClosedError] and changes neither the queue nor the samples
    accepted; [close()] twice is [close()] once; and [close()] keeps every
    buffered sample, all of which are still handed out, in order, before the
    sentinel. *)
Theorem push_after_close_fails
    (q : Samplequeue.t) (h : Samplequeue.history)
    (ops : list Samplequeue.op) (s : sample) :
  let st := Samplequeue.run ops (Samplequeue.close q, h) in
  Samplequeue.push (fst st) s = Samplequeue.QueueClosedError /\
  Samplequeue.apply (Samplequeue.OpPush s) st
    = (fst st,
       Samplequeue.mk_history
         (Samplequeue.accepted (snd st)) (Samplequeue.returned (snd st))
         (S (Samplequeue.refused (snd st))) (Samplequeue.sentinels (snd st))) /\
  Samplequeue.close (Samplequeue.close q) = Samplequeue.close q /\
  Samplequeue.items (Samplequeue.close q) = Samplequeue.items q /\
  Samplequeue.drain (S (List.length (Samplequeue.items q))) (Samplequeue.close q)
    = (Samplequeue.items q, Some Samplequeue.NoMoreData,
       Samplequeue.mk [] true (Samplequeue.capacity q)).
Proof.
  intros st.
  assert (Hc : Samplequeue.closed (fst st) = true)
    by (apply SamplequeueFacts.run_closed; reflexivity).
  assert (Hp : Samplequeue.push (fst st) s = Samplequeue.QueueClosedError)
    by (unfold Samplequeue.push; now rewrite Hc).
  repeat split.
  - exact Hp.
  - destruct st as [q' h']. cbn [fst snd] in *.
    unfold Samplequeue.apply. now rewrite Hp.
  - unfold Samplequeue.close.
    apply SamplequeueFacts.drain_closed. lia.
Qed.

(* ===================================================================== *)
(** ** Properties of the two loops *)
(* ===================================================================== *)

Ltac pipeline_fields :=
  cbn [samplequeue writer producer_calls consumer_calls producer consumer exited
       Writer.log Writer.buffered Writer.closes Writer.path
       Samplequeue.closed Samplequeue.items Samplequeue.capacity
       partial_iteration in_hand unflushed holding] in *.

(** Running a schedule call by call, each state computed once. *)
Ltac run_by_calls :=
  cbv beta iota zeta delta
    [run step main_loop write start
     Samplequeue.empty Samplequeue.push Samplequeue.pop
     Samplequeue.items Samplequeue.closed Samplequeue.capacity
     Writer.open Writer.write_sample Writer.flush
     Writer.path Writer.log Writer.buffered Writer.closes
     samplequeue writer producer_calls consumer_calls producer consumer exited
     Nat.leb List.length app].

Declare Reduction run_calls :=
  cbv beta iota zeta delta
    [run step main_loop write start
     Samplequeue.empty Samplequeue.push Samplequeue.pop
     Samplequeue.items Samplequeue.closed Samplequeue.capacity
     Writer.open Writer.write_sample Writer.flush
     Writer.path Writer.log Writer.buffered Writer.closes
     samplequeue writer producer_calls consumer_calls producer consumer exited
     Nat.leb List.length app].

(** The state a schedule ends in, as the witness of an existential. *)
Ltac exists_outcome :=
  match goal with
  | |- exists p, ?r = Some p /\ _ =>
      let v := eval run_calls in r in
      match v with Some ?q => exists q end
  end.

Section Pipeline.

Variable existing : list sample.

Lemma pops_of_app cs1 cs2 : pops_of (cs1 ++ cs2) = pops_of cs1 ++ pops_of cs2.
Proof. apply flat_map_app. Qed.

Lemma samples_of_app cs1 cs2 :
  samples_of (cs1 ++ cs2) = samples_of cs1 ++ samples_of cs2.
Proof. apply flat_map_app. Qed.

Lemma iterations_app ds1 ds2 : iterations (ds1 ++ ds2) = iterations ds1 ++ iterations ds2.
Proof. apply flat_map_app. Qed.

Lemma pops_of_iterations ds : pops_of (iterations ds) = ds.
Proof.
  induction ds as [|d ds IH]; [reflexivity|].
  change (iterations (d :: ds))
    with ([CallPop d; CallWriteSample d; CallFlush] ++ iterations ds).
  rewrite pops_of_app, IH. reflexivity.
Qed.

Lemma start_consistent cap : consistent existing (start cap existing).
Proof.
  unfold consistent, start, pipeline. pipeline_fields.
  split; [reflexivity|]. split; [reflexivity|].
  exists []. repeat split. cbn. now rewrite app_nil_r.
Qed.

(** Each call of the consumer thread keeps the invariant. *)
Lemma write_consistent e p p' :
  consistent existing p -> write e p = Some p' -> consistent existing p'.
Proof.
  intros (Hopen & Hcl & ds & Hcalls & Hbuf & Hlog & Hsam) Hw.
  unfold write in Hw. unfold pipeline in Hsam.
  destruct e; try discriminate; destruct (consumer p) as [|d|d] eqn:Ec;
    try discriminate.
  - (* pop *)
    unfold Samplequeue.pop in Hw.
    destruct (Samplequeue.items (samplequeue p)) as [|d rest] eqn:E.
    + destruct (Samplequeue.closed (samplequeue p)); discriminate.
    + inversion Hw; subst p'; clear Hw. unfold consistent, pipeline.
      pipeline_fields. split; [assumption|]. split; [assumption|].
      exists ds. rewrite Hcalls, app_nil_r. repeat split; assumption.
  - (* write_sample *)
    inversion Hw; subst p'; clear Hw. unfold consistent, pipeline, Writer.write_sample.
    pipeline_fields. split; [assumption|]. split; [assumption|].
    exists ds. rewrite Hcalls, Hbuf, <- app_assoc. repeat split; assumption.
  - (* flush *)
    inversion Hw; subst p'; clear Hw. unfold consistent, pipeline, Writer.flush.
    pipeline_fields. split; [assumption|]. split; [assumption|].
    exists (ds ++ [d]).
    rewrite Hcalls, Hbuf, Hlog, Hsam, iterations_app, <- !app_assoc.
    repeat split.
Qed.

(** Each call of the main thread keeps the invariant. *)
Lemma main_loop_consistent e p p' :
  consistent existing p -> main_loop e p = Some p' -> consistent existing p'.
Proof.
  intros (Hopen & Hcl & ds & Hcalls & Hbuf & Hlog & Hsam) Hm.
  unfold main_loop in Hm. unfold pipeline in Hsam.
  destruct e as [data| | | | |]; try discriminate;
    destruct (producer p) as [|d] eqn:Ep; try discriminate.
  - (* sample_usage *)
    inversion Hm; subst p'; clear Hm. unfold consistent, pipeline.
    pipeline_fields. split; [assumption|]. split; [assumption|].
    exists ds. rewrite samples_of_app, Hsam.
    change (samples_of [CallSampleUsage data]) with [data].
    rewrite app_nil_r, <- !app_assoc. repeat split; assumption.
  - (* push *)
    unfold Samplequeue.push in Hm. rewrite Hopen in Hm.
    destruct (Samplequeue.capacity (samplequeue p)
                <=? List.length (Samplequeue.items (samplequeue p)))%nat;
      [discriminate|].
    inversion Hm; subst p'; clear Hm. unfold consistent, pipeline.
    pipeline_fields. split; [reflexivity|]. split; [assumption|].
    exists ds. rewrite samples_of_app, Hsam.
    change (samples_of [CallPush d]) with (@nil sample).
    rewrite !app_nil_r, <- ?app_assoc. repeat split; assumption.
Qed.

Lemma step_consistent e p p' :
  consistent existing p -> step e p = Some p' -> consistent existing p'.
Proof.
  intros Hc Hs. unfold step in Hs. destruct (exited p); [discriminate|].
  destruct e as [data| | | | |];
    try (eapply main_loop_consistent; eassumption);
    try (eapply write_consistent; eassumption).
  inversion Hs; subst p'. exact Hc.
Qed.

Lemma run_consistent es : forall p p',
  consistent existing p -> run es p = Some p' -> consistent existing p'.
Proof.
  induction es as [|e es IH]; intros p p' Hc Hr; cbn in Hr.
  - inversion Hr; subst; exact Hc.
  - destruct (step e p) as [p1|] eqn:E; [|discriminate].
    eapply IH; [|eassumption]. eapply step_consistent; eassumption.
Qed.

(** Whole iterations in front of a trace change neither verdict. *)
Lemma iterations_flushed ds cs :
  flush_follows_write (iterations ds ++ cs) = flush_follows_write cs /\
  no_pop_while_unflushed false (iterations ds ++ cs)
    = no_pop_while_unflushed false cs.
Proof.
  induction ds as [|d ds [IH1 IH2]]; [split; reflexivity|].
  cbn. now split.
Qed.

End Pipeline.

(** C9. In every run of the program, taken call by call, the calls of the
    consumer thread are whole iterations pop, [write_sample], [flush]
    followed by the iteration in progress: each [write_sample] has [flush] as
    the very next call of the thread, no pop happens while a written record
    is unflushed, and the writer's buffer holds nothing but the record whose
    flush is the thread's next call. Whenever the thread is between two
    iterations, every [write_sample] made has been followed at once by its
    [flush], the buffer is empty and every popped sample is a record of the
    log. *)
Theorem flush_after_every_write
    (cap : nat) (existing : list sample) (es : list event) (p : process) :
  run es (start cap existing) = Some p ->
  (exists ds,
     consumer_calls p = iterations ds ++ partial_iteration (consumer p) /\
     Writer.buffered (writer p) = unflushed (consumer p) /\
     Writer.log (writer p) = existing ++ ds) /\
  flush_follows_write (consumer_calls p ++ next_flush (consumer p)) = true /\
  no_pop_while_unflushed false (consumer_calls p) = true /\
  (consumer p = AtPop ->
   consumer_calls p = iterations (pops_of (consumer_calls p)) /\
   flush_follows_write (consumer_calls p) = true /\
   no_pop_while_unflushed false (consumer_calls p) = true /\
   Writer.buffered (writer p) = [] /\
   Writer.log (writer p) = existing ++ pops_of (consumer_calls p)).
Proof.
  intros Hr.
  destruct (run_consistent existing es _ _ (start_consistent existing cap) Hr)
    as (_ & _ & ds & Hcalls & Hbuf & Hlog & _).
  assert (Hf : flush_follows_write (consumer_calls p ++ next_flush (consumer p)) = true).
  { rewrite Hcalls, <- app_assoc.
    rewrite (proj1 (iterations_flushed ds _)).
    now destruct (consumer p). }
  assert (Hn : no_pop_while_unflushed false (consumer_calls p) = true).
  { rewrite Hcalls, (proj2 (iterations_flushed ds _)).
    now destruct (consumer p). }
  split; [exists ds; repeat split; assumption|].
  split; [exact Hf|]. split; [exact Hn|].
  intros Hat. rewrite Hat in *. cbn [partial_iteration unflushed next_flush] in *.
  rewrite app_nil_r in *.
  rewrite Hcalls at 2 5. rewrite pops_of_iterations.
  repeat split; assumption.
Qed.

Lemma flush_after_every_write_witness :
  exists p,
    run [Sample (mk_sample Double.zero 1); Push; Pop;
         Sample (mk_sample Double.one 2); WriteSample; Push; Flush;
         Pop; WriteSample; Flush] (start 4 []) = Some p /\
    flush_follows_write (consumer_calls p) = true /\
    Writer.log (writer p) = [mk_sample Double.zero 1; mk_sample Double.one 2].
Proof.
  exists_outcome.
  match goal with
  | |- ?r = Some ?q /\ _ => assert (Hr : r = Some q) by (run_by_calls; reflexivity)
  end.
  split; [exact Hr|].
  destruct (flush_after_every_write 4 [] _ _ Hr) as (_ & _ & _ & H).
  destruct (H eq_refl) as (_ & Hf & _ & _ & Hl).
  split; [exact Hf|exact Hl].
Defined.

(** C3. The program has no shutdown path. In every run, taken call by call,
    the queue is never closed and [close()] is never called on the writer;
    every sample obtained is either a record of the log or still on its way
    (in the producer's hands, in the queue, or popped and not yet flushed);
    and a termination request ends the process where it stands: no call
    follows it, so what is on its way then is never drained or written. *)
Theorem no_safe_shutdown
    (cap : nat) (existing : list sample) (es : list event) (p : process) :
  run es (start cap existing) = Some p ->
  Writer.closes (writer p) = 0%nat /\
  Samplequeue.closed (samplequeue p) = false /\
  existing ++ samples_of (producer_calls p) = Writer.log (writer p) ++ pipeline p /\
  (exited p = true ->
   forall (es' : list event) (p' : process), run es' p = Some p' -> p' = p).
Proof.
  intros Hr.
  destruct (run_consistent existing es _ _ (start_consistent existing cap) Hr)
    as (Hopen & Hcl & ds & _ & _ & Hlog & Hcons).
  split; [exact Hcl|]. split; [exact Hopen|]. split.
  - rewrite Hlog, Hcons. now rewrite app_assoc.
  - intros Hex [|e es'] p' Hr'; cbn in Hr'.
    + now inversion Hr'.
    + unfold step in Hr'. rewrite Hex in Hr'. discriminate.
Qed.

Lemma no_safe_shutdown_witness :
  exists p,
    run [Sample (mk_sample Double.zero 1); Push;
         Sample (mk_sample Double.one 2); Push; Pop; Interrupt]
        (start 4 []) = Some p /\
    exited p = true /\
    consumer p = AtWriteSample (mk_sample Double.zero 1) /\
    Samplequeue.items (samplequeue p) = [mk_sample Double.one 2] /\
    Writer.log (writer p) = [] /\
    Writer.closes (writer p) = 0%nat.
Proof.
  exists_outcome.
  match goal with
  | |- ?r = Some ?q /\ _ => assert (Hr : r = Some q) by (run_by_calls; reflexivity)
  end.
  split; [exact Hr|].
  do 4 (split; [reflexivity|]).
  exact (proj1 (no_safe_shutdown 4 [] _ _ Hr)).
Defined.

(** C5. With A = (user 100, idle 900, others 0) and B = (user 120, idle 950,
    others 0) the deltas are user 20 and idle 50, the total is 70, and the
    value returned is the double nearest to 20/70, within 0.0001 of 0.2857;
    a sample carrying it, once pushed, popped, written and flushed, is
    exactly one more record of the log. *)
Theorem end_to_end_scenario :
  let a := snap_user_idle 100 900 in
  let b := snap_user_idle 120 950 in
  deltas a b = [20; 0; 0; 50; 0; 0; 0] /\
  total_delta a b = 70 /\
  sample_cpu_usage a b = Double.div (Double.of_u64 (70 - 50)) (Double.of_u64 70) /\
  sample_cpu_usage a b = S754_finite false 5146971002709138 (-54) /\
  Double.near (sample_cpu_usage a b) (2857 # 10000) (1 # 10000) = true /\
  forall (cap : nat) (existing : list sample) (t : Z),
    (0 < cap)%nat ->
    exists p,
      run [Sample (mk_sample (sample_cpu_usage a b) t); Push;
           Pop; WriteSample; Flush]
          (start cap existing) = Some p /\
      Writer.log (writer p) = existing ++ [mk_sample (sample_cpu_usage a b) t] /\
      Writer.buffered (writer p) = [] /\
      Samplequeue.items (samplequeue p) = [].
Proof.
  intros a b.
  repeat split; try (vm_compute; reflexivity).
  intros cap existing t Hcap.
  destruct cap as [|cap]; [lia|].
  eexists. split; [run_by_calls; reflexivity|].
  cbn [writer samplequeue Writer.log Writer.buffered Samplequeue.items app].
  repeat split.
Qed.

Lemma end_to_end_scenario_witness :
  exists p,
    run [Sample (mk_sample (sample_cpu_usage (snap_user_idle 100 900)
                              (snap_user_idle 120 950)) 1); Push;
         Pop; WriteSample; Flush]
        (start 10 []) = Some p /\
    Writer.log (writer p) =
      [] ++ [mk_sample (sample_cpu_usage (snap_user_idle 100 900)
                          (snap_user_idle 120 950)) 1].
Proof.
  destruct (proj2 (proj2 (proj2 (proj2 (proj2 end_to_end_scenario)))) 10%nat [] 1
              ltac:(lia)) as (p & H1 & H2 & _).
  exists p. split; assumption.
Defined.

(* ===================================================================== *)
(** ** Further properties of the double arithmetic *)
(* ===================================================================== *)

Section DivisionFacts.

(** What the location computed by the division says of the remainder. *)
Lemma new_location_spec (d r : Z) :
  0 <= r < d ->
  match new_location d r with
  | loc_Exact => r = 0
  | loc_Inexact Lt => 0 < 2 * r < d
  | loc_Inexact Eq => 2 * r = d
  | loc_Inexact Gt => d < 2 * r
  end.
Proof.
  intros Hr. unfold new_location, new_location_even, new_location_odd.
  destruct (Z.even d) eqn:Ev.
  - destruct (Z.eqb_spec r 0) as [|Hne]; [assumption|].
    destruct (Z.compare_spec (2 * r) d); lia.
  - destruct (Z.eqb_spec r 0) as [|Hne]; [assumption|].
    assert (Hodd : Z.odd d = true) by (rewrite <- Z.negb_even, Ev; reflexivity).
    apply Z.odd_spec in Hodd. destruct Hodd as [c Hc].
    destruct (Z.compare_spec (2 * r + 1) d); lia.
Qed.

(** A location survives the passage through a shift record. *)
Lemma loc_of_shr_record_of_loc m l :
  loc_of_shr_record (shr_record_of_loc m l) = l.
Proof. now destruct l as [|[| |]]. Qed.

(** Rounding the quotient [q] of a division by [d] with remainder [r], after
    a right shift of [k] bits ([k] is 0 or 1): the rounded mantissa, scaled
    back, is within half a unit of the exact quotient. *)
Lemma round_quotient_near (q r d : Z) (k : nat) :
  0 <= q -> 0 <= r < d -> (k <= 1)%nat ->
  let mrs := Nat.iter k shr_1 (shr_record_of_loc q (new_location d r)) in
  let R := round_nearest_even (shr_m mrs) (loc_of_shr_record mrs) in
  Z.abs (2 * (R * 2 ^ Z.of_nat k * d - (q * d + r))) <= 2 ^ Z.of_nat k * d.
Proof.
  intros Hq Hr Hk. pose proof (new_location_spec d r Hr) as Hl.
  destruct k as [|[|k]]; [| |lia]; cbv zeta.
  - change (Nat.iter 0 shr_1 ?x) with x.
    rewrite loc_of_shr_record_of_loc, shr_record_of_loc_m.
    change (2 ^ Z.of_nat 0) with 1.
    destruct (new_location d r) as [|[| |]]; cbn [round_nearest_even];
      try destruct (Z.even q); lia.
  - change (Nat.iter 1 shr_1 ?x) with (shr_1 x).
    change (2 ^ Z.of_nat 1) with 2.
    pose proof (Z.div_mod q 2 ltac:(lia)) as Hdm. rewrite Zmod_odd in Hdm.
    destruct (new_location d r) as [|[| |]]; cbn [shr_record_of_loc];
      rewrite shr_1_nonneg by exact Hq;
      destruct (Z.odd q); cbn [orb shr_m loc_of_shr_record round_nearest_even];
      try destruct (Z.even (q / 2)); lia.
Qed.

(** The quotient of two normal positive doubles is a normal positive double
    within half a unit in the last place of the exact quotient: with [j] the
    number of binades the result sits above the raw integer quotient,
    [m * 2^j] is within [2^j / 2] of [m1 * 2^53 / m2]. *)
Lemma SFdiv_normal_rounds (m1 m2 : positive) (e1 e2 : Z) :
  2 ^ 52 <= Zpos m1 < 2 ^ 53 -> 2 ^ 52 <= Zpos m2 < 2 ^ 53 ->
  -52 <= e1 <= 12 -> -52 <= e2 <= 12 ->
  exists m e j,
    SFdiv 53 1024 (S754_finite false m1 e1) (S754_finite false m2 e2)
      = S754_finite false m e /\
    2 ^ 52 <= Zpos m < 2 ^ 53 /\
    0 <= j <= 2 /\ e = e1 - e2 - 53 + j /\
    Z.abs (2 * (Zpos m * 2 ^ j * Zpos m2 - Zpos m1 * 2 ^ 53)) <= 2 ^ j * Zpos m2.
Proof.
  intros Hm1 Hm2 He1 He2.
  assert (D1 : Zpos (digits2_pos m1) = 53) by (apply digits2_unique; lia).
  assert (D2 : Zpos (digits2_pos m2) = 53) by (apply digits2_unique; lia).
  unfold SFdiv. rewrite SFdiv_core_normal by lia. cbn [xorb].
  pose proof (Z.div_mod (Zpos m1 * 2 ^ 53) (Zpos m2) ltac:(lia)) as Hdm.
  pose proof (Z.mod_pos_bound (Zpos m1 * 2 ^ 53) (Zpos m2) ltac:(lia)) as Hrem.
  set (q := Zpos m1 * 2 ^ 53 / Zpos m2) in *.
  set (r := (Zpos m1 * 2 ^ 53) mod Zpos m2) in *.
  assert (Hq : 2 ^ 52 <= q < 2 ^ 54).
  { unfold q. split.
    - apply Z.div_le_lower_bound; nia.
    - apply Z.div_lt_upper_bound; nia. }
  destruct q as [|qp|qp] eqn:Eq; try lia.
  assert (Hk : exists k : nat, (k <= 1)%nat /\ Zpos (digits2_pos qp) - 53 = Z.of_nat k).
  { destruct (Z_lt_le_dec (Zpos qp) (2 ^ 53)).
    - exists 0%nat. split; [lia|].
      assert (Zpos (digits2_pos qp) = 53) by (apply digits2_unique; lia). lia.
    - exists 1%nat. split; [lia|].
      assert (Zpos (digits2_pos qp) = 54) by (apply digits2_unique; lia). lia. }
  destruct Hk as (k & Hk1 & Hk).
  destruct (binary_round_aux_rounds false qp (e1 - e2 - 53)
              (new_location (Zpos m2) r)) as (Hsm & Hrange & Hbra); try lia.
  rewrite Hk in Hsm, Hrange, Hbra. rewrite Nat2Z.id in Hsm, Hbra.
  pose proof (round_quotient_near (Zpos qp) r (Zpos m2) k ltac:(lia) Hrem Hk1) as Hnear.
  cbv zeta in Hnear.
  set (mrs := Nat.iter k shr_1 (shr_record_of_loc (Zpos qp) (new_location (Zpos m2) r))) in *.
  pose proof (round_nearest_even_bounds (shr_m mrs) (loc_of_shr_record mrs)) as HR.
  set (R := round_nearest_even (shr_m mrs) (loc_of_shr_record mrs)) in *.
  rewrite Hsm in HR. rewrite Hbra.
  assert (HP : 2 ^ Z.of_nat k = 1 /\ k = 0%nat \/ 2 ^ Z.of_nat k = 2 /\ k = 1%nat).
  { destruct k as [|[|k]]; [left|right|lia]; split; reflexivity. }
  replace (Zpos m2 * Zpos qp + r) with (Zpos qp * Zpos m2 + r) in Hdm by ring.
  rewrite <- Hdm in Hnear.
  destruct (Z.ltb_spec R (2 ^ 53)) as [Hlt|Hge].
  - exists (Z.to_pos R), (e1 - e2 - 53 + Z.of_nat k), (Z.of_nat k).
    rewrite Z2Pos.id by lia.
    split; [reflexivity|]. split; [lia|]. split; [lia|]. split; [lia|].
    exact Hnear.
  - exists 4503599627370496%positive, (e1 - e2 - 53 + Z.of_nat k + 1), (Z.of_nat k + 1).
    assert (ER : R = 2 ^ 53) by lia. rewrite ER in Hnear.
    split; [reflexivity|]. split; [lia|]. split; [lia|]. split; [lia|].
    rewrite pow2_succ by lia.
    change (Zpos 4503599627370496) with (2 ^ 52).
    change (2 ^ 53) with (2 ^ 52 * 2) in Hnear at 1.
    set (P := 2 ^ Z.of_nat k) in *.
    assert (0 < P) by (destruct HP as [[-> _]|[-> _]]; lia).
    replace (2 ^ 52 * (2 * P) * Zpos m2) with (2 ^ 52 * 2 * P * Zpos m2) by ring.
    lia.
Qed.


(** [double(n)] of a positive 64-bit integer is a normal positive double. *)
Lemma of_u64_normal (n : Z) :
  0 < n < 2 ^ 64 ->
  exists m e, Double.of_u64 n = S754_finite false m e /\
              2 ^ 52 <= Zpos m < 2 ^ 53 /\ -52 <= e <= 12.
Proof.
  intros Hn. destruct (of_u64_converts n Hn) as (m & e & v & E & Hm & He & _).
  exists m, e. split; [exact E|]. split; assumption.
Qed.

(** A double divided by itself is exactly 1.0. *)
Lemma SFdiv_self (m : positive) (e : Z) :
  2 ^ 52 <= Zpos m < 2 ^ 53 -> -52 <= e <= 12 ->
  SFdiv 53 1024 (S754_finite false m e) (S754_finite false m e)
    = S754_finite false 4503599627370496 (-52).
Proof.
  intros Hm He.
  destruct (SFdiv_normal_rounds m m e e Hm Hm He He)
    as (m' & e' & j & Ed & Hm' & Hj & He' & Hnear).
  rewrite Ed.
  assert (Hj' : j = 0 \/ j = 1 \/ j = 2) by lia.
  assert (Hc : Z.abs (2 * (Zpos m' * 2 ^ j - 2 ^ 53)) <= 2 ^ j).
  { assert (0 < 2 ^ j) by (apply Z.pow_pos_nonneg; lia).
    set (P := 2 ^ j) in *.
    replace (Zpos m' * P * Zpos m - Zpos m * 2 ^ 53)
      with (Zpos m * (Zpos m' * P - 2 ^ 53)) in Hnear by ring.
    nia. }
  assert (Em : Zpos m' = 2 ^ 52 /\ j = 1).
  { destruct Hj' as [->|[->| ->]].
    - change (2 ^ 0) with 1 in Hc. lia.
    - change (2 ^ 1) with 2 in Hc. lia.
    - change (2 ^ 2) with 4 in Hc. lia. }
  destruct Em as [Em ->].
  change (2 ^ 52) with (Zpos 4503599627370496) in Em.
  injection Em as ->. f_equal. lia.
Qed.

(** Below [2^53] the conversion is exact: the mantissa is the integer
    shifted left. *)
Lemma of_u64_exact (n : Z) :
  0 < n < 2 ^ 53 ->
  exists m s, Double.of_u64 n = S754_finite false m (- s) /\
              0 <= s <= 52 /\ 2 ^ 52 <= Zpos m < 2 ^ 53 /\
              Zpos m = n * 2 ^ s.
Proof.
  intros Hn.
  destruct (of_u64_converts n ltac:(lia)) as (m & e & v & E & Hm & He & Ev & Hv).
  assert (Hvn : v = n).
  { destruct Hv as [[_ Hv]|(k & r & Hk & Hnk & Hv & Hr & Hnear)]; [exact Hv|].
    assert (k = 0).
    { destruct (Z.eq_dec k 0) as [|Hk0]; [assumption|exfalso].
      assert (2 ^ 53 <= 2 ^ (52 + k)) by (apply Z.pow_le_mono_r; lia). lia. }
    subst k. change (2 ^ 0) with 1 in *. lia. }
  subst v.
  assert (He0 : e <= 0).
  { destruct (Z_le_gt_dec e 0) as [|Hgt]; [assumption|exfalso].
    assert (2 ^ 53 <= 2 ^ (e + 52)) by (apply Z.pow_le_mono_r; lia).
    assert (2 ^ 52 * 2 ^ 53 <= Zpos m * 2 ^ (e + 52)) by nia.
    nia. }
  exists m, (- e). rewrite Z.opp_involutive.
  split; [exact E|]. split; [lia|]. split; [exact Hm|].
  assert (Hp : 2 ^ 52 = 2 ^ (- e) * 2 ^ (e + 52)).
  { rewrite <- Z.pow_add_r by lia. f_equal. lia. }
  assert (0 < 2 ^ (e + 52)) by (apply Z.pow_pos_nonneg; lia).
  rewrite Hp in Ev.
  apply (Z.mul_cancel_r _ _ (2 ^ (e + 52))); [lia|].
  rewrite Ev. ring.
Qed.

(** The quotient of the doubles of two integers below [2^53], the first
    positive and no larger than the second, against the exact ratio: the
    difference is at most half a unit in the last place. *)
Lemma quotient_correctly_rounded (n t : Z) :
  0 < n <= t -> t < 2 ^ 53 ->
  exists m e,
    Double.div (Double.of_u64 n) (Double.of_u64 t) = S754_finite false m e /\
    2 ^ 52 <= Zpos m < 2 ^ 53 /\ -106 <= e <= -52 /\
    Z.abs (2 * (Zpos m * t - n * 2 ^ (- e))) <= t.
Proof.
  intros Hn Ht.
  destruct (of_u64_exact n ltac:(lia)) as (m1 & s1 & E1 & Hs1 & Hm1 & Em1).
  destruct (of_u64_exact t ltac:(lia)) as (m2 & s2 & E2 & Hs2 & Hm2 & Em2).
  rewrite E1, E2. unfold Double.div, Double.prec, Double.emax.
  assert (Hle : normal_le m1 (- s1) m2 (- s2)).
  { apply (normal_le_of_values m1 (- s1) n m2 (- s2) t); try lia.
    - rewrite Em1, <- Z.mul_assoc, <- Z.pow_add_r by lia. do 2 f_equal. lia.
    - rewrite Em2, <- Z.mul_assoc, <- Z.pow_add_r by lia. do 2 f_equal. lia. }
  destruct (SFdiv_normal_le m1 m2 (- s1) (- s2) Hm1 Hm2 ltac:(lia) ltac:(lia) Hle)
    as (m' & e' & Ed' & _ & Hone).
  destruct (SFdiv_normal_rounds m1 m2 (- s1) (- s2) Hm1 Hm2 ltac:(lia) ltac:(lia))
    as (m & e & j & Ed & Hm & Hj & He & Hnear).
  rewrite Ed in Ed'. injection Ed' as <- <-.
  assert (He52 : e <= -52) by (destruct Hone as [|[? _]]; lia).
  exists m, e. split; [exact Ed|]. split; [exact Hm|]. split; [lia|].
  assert (HP : 0 < 2 ^ j * 2 ^ s2).
  { apply Z.mul_pos_pos; apply Z.pow_pos_nonneg; lia. }
  assert (Hpow : 2 ^ s1 * 2 ^ 53 = 2 ^ (- e) * (2 ^ j * 2 ^ s2)).
  { rewrite <- !Z.pow_add_r by lia. f_equal. lia. }
  set (P := 2 ^ j * 2 ^ s2) in *.
  set (X := Zpos m * t - n * 2 ^ (- e)).
  assert (Hx : Zpos m * 2 ^ j * Zpos m2 - Zpos m1 * 2 ^ 53 = P * X).
  { rewrite Em1, Em2. unfold X, P.
    replace (n * 2 ^ s1 * 2 ^ 53) with (n * (2 ^ s1 * 2 ^ 53)) by ring.
    rewrite Hpow. unfold P. ring. }
  rewrite Hx, Em2 in Hnear.
  replace (2 ^ j * (t * 2 ^ s2)) with (P * t) in Hnear by (unfold P; ring).
  nia.
Qed.

(** The same in rationals: at or below 1.0 half a unit in the last place is
    at most [2^-53]. *)
Lemma value_near_ratio (m : positive) (e n t : Z) :
  0 < t -> e <= -52 ->
  Z.abs (2 * (Zpos m * t - n * 2 ^ (- e))) <= t ->
  exists v, Double.value (S754_finite false m e) = Some v /\
            (Qabs (v - (n # Z.to_pos t)) <= 1 # 9007199254740992)%Q.
Proof.
  intros Ht He Hnear. eexists. split; [reflexivity|].
  destruct e as [|ep|ep]; try lia.
  change (- Zneg ep) with (Zpos ep) in Hnear.
  assert (E : (2 ^ Zneg ep == 1 # (2 ^ ep)%positive)%Q).
  { change 2%Q with (2 # 1)%Q. rewrite (Qpower_decomp_neg_pos ep 2 1).
    now rewrite Z.pow_1_l by lia. }
  rewrite Qmult_1_l, E.
  assert (H52 : 2 ^ 52 <= 2 ^ Zpos ep) by (apply Z.pow_le_mono_r; lia).
  unfold Qle, Qabs, Qminus, Qplus, Qopp, Qmult, inject_Z. cbn [Qnum Qden].
  rewrite !Pos.mul_1_l, Pos2Z.inj_mul, Pos2Z.inj_pow, Z2Pos.id by lia.
  rewrite Z.mul_1_l.
  change (Zpos 9007199254740992) with (2 * 2 ^ 52).
  set (P := 2 ^ Zpos ep) in *.
  replace (Zpos m * 1 * t + - n * P) with (Zpos m * t - n * P) by ring.
  set (X := Zpos m * t - n * P) in *.
  assert (Z.abs X * 2 <= t) by lia.
  assert (0 <= Z.abs X) by lia.
  nia.
Qed.

End DivisionFacts.

(** The quotient of two normal positive doubles, the first larger than the
    second, is a normal double above 1.0. *)
Lemma SFdiv_normal_gt (m1 m2 : positive) (e1 e2 : Z) :
  2 ^ 52 <= Zpos m1 < 2 ^ 53 -> 2 ^ 52 <= Zpos m2 < 2 ^ 53 ->
  -52 <= e1 <= 12 -> -52 <= e2 <= 12 ->
  normal_lt m2 e2 m1 e1 ->
  exists m e,
    SFdiv 53 1024 (S754_finite false m1 e1) (S754_finite false m2 e2)
      = S754_finite false m e /\
    2 ^ 52 <= Zpos m < 2 ^ 53 /\
    normal_lt 4503599627370496 (-52) m e.
Proof.
  intros Hm1 Hm2 He1 He2 Hlt.
  destruct (SFdiv_normal_rounds m1 m2 e1 e2 Hm1 Hm2 He1 He2)
    as (m & e & j & Ed & Hm & Hj & He & Hnear).
  exists m, e. split; [exact Ed|]. split; [exact Hm|].
  unfold normal_lt in *. change (Zpos 4503599627370496) with (2 ^ 52).
  assert (Hj' : j = 0 \/ j = 1 \/ j = 2) by lia.
  destruct Hlt as [Hlt|[Heq Hlt]].
  - (* a larger exponent *)
    destruct (Z.eq_dec e (-52)) as [E|E]; [|left; lia].
    right. split; [lia|].
    assert (j = 0) by lia. subst j. change (2 ^ 0) with 1 in Hnear.
    assert (e1 = e2 + 1) by lia.
    destruct (Z_lt_le_dec (2 ^ 52) (Zpos m)) as [|Hle]; [assumption|exfalso].
    assert (Zpos m = 2 ^ 52) as Em by lia. rewrite Em in Hnear. lia.
  - (* the same exponent, a larger mantissa *)
    subst e2. replace (e1 - e1 - 53 + j) with (-53 + j) in He by lia.
    destruct Hj' as [->|[->| ->]].
    + exfalso. change (2 ^ 0) with 1 in Hnear. nia.
    + right. split; [lia|]. change (2 ^ 1) with 2 in Hnear.
      destruct (Z_lt_le_dec (2 ^ 52) (Zpos m)) as [|Hle]; [assumption|exfalso].
      assert (Zpos m = 2 ^ 52) as Em by lia. rewrite Em in Hnear. nia.
    + left. lia.
Qed.

(** Above 1.0 in that order: greater than 1.0 as the doubles compare, and
    outside [0.0, 1.0]. *)
Lemma normal_gt_one (m : positive) (e : Z) :
  normal_lt 4503599627370496 (-52) m e ->
  Double.ltb Double.one (S754_finite false m e) = true /\
  Double.in_unit_interval (S754_finite false m e) = false.
Proof.
  intros Hlt. unfold Double.in_unit_interval, Double.ltb, Double.leb, SFltb, SFleb.
  rewrite double_one. cbn [SFcompare Double.zero andb].
  destruct Hlt as [Hlt|[He Hlt]]; [|subst e].
  - assert (H1 : (-52 ?= e) = Lt) by (apply Z.compare_lt_iff; lia).
    assert (H2 : (e ?= -52) = Gt) by (apply Z.compare_gt_iff; lia).
    rewrite H1, H2. split; reflexivity.
  - rewrite Z.compare_refl.
    destruct (PosDef.Pos.compare_cont Eq 4503599627370496 m) eqn:E1.
    + pose proof (f_equal Zpos (proj1 (Pos.compare_eq_iff 4503599627370496 m) E1)) as H.
      lia.
    + destruct (PosDef.Pos.compare_cont Eq m 4503599627370496) eqn:E2.
      * pose proof (f_equal Zpos (proj1 (Pos.compare_eq_iff m 4503599627370496) E2)) as H.
        lia.
      * pose proof (Pos2Z.pos_lt_pos _ _ (proj1 (Pos.compare_lt_iff m 4503599627370496) E2)) as H.
        lia.
      * split; reflexivity.
    + pose proof (Pos2Z.pos_lt_pos _ _ (proj1 (Pos.compare_gt_iff 4503599627370496 m) E1)) as H.
      lia.
Qed.

(** The quotient of the doubles of two integers below [2^53], the first
    larger than the second, is above 1.0. *)
Lemma quotient_above_one (n t : Z) :
  0 < t < n -> n < 2 ^ 53 ->
  Double.ltb Double.one (Double.div (Double.of_u64 n) (Double.of_u64 t)) = true /\
  Double.in_unit_interval (Double.div (Double.of_u64 n) (Double.of_u64 t)) = false.
Proof.
  intros Ht Hn.
  destruct (of_u64_exact n ltac:(lia)) as (m1 & s1 & E1 & Hs1 & Hm1 & Em1).
  destruct (of_u64_exact t ltac:(lia)) as (m2 & s2 & E2 & Hs2 & Hm2 & Em2).
  rewrite E1, E2. unfold Double.div, Double.prec, Double.emax.
  assert (Hle : normal_le m2 (- s2) m1 (- s1)).
  { apply (normal_le_of_values m2 (- s2) t m1 (- s1) n); try lia.
    - rewrite Em2, <- Z.mul_assoc, <- Z.pow_add_r by lia. do 2 f_equal. lia.
    - rewrite Em1, <- Z.mul_assoc, <- Z.pow_add_r by lia. do 2 f_equal. lia. }
  assert (Hlt : normal_lt m2 (- s2) m1 (- s1)).
  { destruct Hle as [Hl|[Heq Hl]]; [left; exact Hl|right].
    split; [exact Heq|].
    assert (s1 = s2) by lia. subst s2.
    assert (0 < 2 ^ s1) by (apply Z.pow_pos_nonneg; lia). nia. }
  destruct (SFdiv_normal_gt m1 m2 (- s1) (- s2) Hm1 Hm2 ltac:(lia) ltac:(lia) Hlt)
    as (m & e & Ed & _ & Hone).
  rewrite Ed. apply normal_gt_one. exact Hone.
Qed.

(** Below [2^53] the conversion loses nothing: the double stands for the
    integer itself. *)
Lemma of_u64_value (n : Z) :
  0 <= n < 2 ^ 53 ->
  exists v, Double.value (Double.of_u64 n) = Some v /\ (v == inject_Z n)%Q.
Proof.
  intros Hn. destruct (Z.eq_dec n 0) as [->|Hn0].
  - exists 0%Q. split; reflexivity.
  - destruct (of_u64_exact n ltac:(lia)) as (m & s & E & Hs & Hm & Em).
    rewrite E. eexists. split; [reflexivity|].
    rewrite Qmult_1_l, Em.
    destruct s as [|sp|sp]; try lia.
    + change (- 0) with 0. change (2 ^ 0)%Q with 1%Q. rewrite Qmult_1_r.
      rewrite Z.pow_0_r, Z.mul_1_r. reflexivity.
    + change (- Zpos sp) with (Zneg sp).
      assert (E2 : (2 ^ Zneg sp == 1 # (2 ^ sp)%positive)%Q).
      { change 2%Q with (2 # 1)%Q. rewrite (Qpower_decomp_neg_pos sp 2 1).
        now rewrite Z.pow_1_l by lia. }
      rewrite E2. unfold Qeq, Qmult, inject_Z. cbn [Qnum Qden].
      rewrite Pos2Z.inj_mul, Pos2Z.inj_pow. ring.
Qed.

(* ===================================================================== *)
(** ** Further properties of the sampler *)
(* ===================================================================== *)

(** A value of the type, moved up or down by 2^64, wraps back to itself. *)
Lemma u64_wrap_shift z :
  U64.in_range z ->
  U64.wrap (z + U64.modulus) = z /\ U64.wrap (z - U64.modulus) = z.
Proof.
  intros Hz. unfold U64.wrap. split.
  - rewrite <- (Z.mul_1_l U64.modulus) at 1.
    rewrite Z.mod_add by (unfold U64.modulus; lia). now apply Z.mod_small.
  - replace (z - U64.modulus) with (z + (-1) * U64.modulus) by ring.
    rewrite Z.mod_add by (unfold U64.modulus; lia). now apply Z.mod_small.
Qed.

(** C10, as worded, fails for a counter that wrapped around: the user
    counter passes 2^64 between the two readings (2^64 - 5, then 15), the
    second reading is the smaller one, and the delta is 20, not a huge
    value. *)
Lemma wrapped_delta_is_not_huge :
  ~ (forall a b : cpusnap,
        cpusnap_wf a -> cpusnap_wf b ->
        forall (field : cpusnap -> Z) (delta : cpusnap -> cpusnap -> Z),
          In (field, delta)
             [ (user_time, user_delta); (nice_time, nice_delta);
               (system_kernel_time, system_delta); (idle_time, idle_delta);
               (iowait_time, iowait_delta); (irq_time, irq_delta);
               (softirq_time, softirq_delta) ] ->
          field b < field a -> huge_delta (delta a b)).
Proof.
  intros H.
  specialize (H (mk_cpusnap (2 ^ 64 - 5) 0 0 900 0 0 0) (mk_cpusnap 15 0 0 950 0 0 0)).
  assert (H1 : cpusnap_wf (mk_cpusnap (2 ^ 64 - 5) 0 0 900 0 0 0))
    by (unfold cpusnap_wf, U64.in_range, U64.modulus; cbn; lia).
  assert (H2 : cpusnap_wf (mk_cpusnap 15 0 0 950 0 0 0))
    by (unfold cpusnap_wf, U64.in_range, U64.modulus; cbn; lia).
  specialize (H H1 H2 user_time user_delta (or_introl eq_refl)).
  assert (H3 : user_time (mk_cpusnap 15 0 0 950 0 0 0)
               < user_time (mk_cpusnap (2 ^ 64 - 5) 0 0 900 0 0 0))
    by (cbn; lia).
  specialize (H H3). unfold huge_delta in H. vm_compute in H. apply H. reflexivity.
Qed.

(** C10, amended. Each of the seven deltas is an unsigned 64-bit
    subtraction, the difference of the two readings modulo 2^64: the
    difference itself when the counter advanced, and for a counter whose
    second reading is the smaller one 2^64 minus the drop, which is huge
    exactly when the counter went back by at most 2^63 (a reset) and is the
    true advance when the counter passed 2^64 (a wraparound). When the idle counter went back by [k] while the other six
    advanced by [n] in all, [k <= n < 2^53], the wrapped idle delta makes the
    total [n - k] and the numerator [n]: the value returned is the quotient
    of the doubles of [n] and [n - k], plus infinity for [n = k] and above
    1.0 otherwise, outside [0.0, 1.0] either way. *)
Theorem counter_reset_wraps (a b : cpusnap) :
  cpusnap_wf a -> cpusnap_wf b ->
  (forall (field : cpusnap -> Z) (delta : cpusnap -> cpusnap -> Z),
     In (field, delta)
        [ (user_time, user_delta); (nice_time, nice_delta);
          (system_kernel_time, system_delta); (idle_time, idle_delta);
          (iowait_time, iowait_delta); (irq_time, irq_delta);
          (softirq_time, softirq_delta) ] ->
     delta a b = (field b - field a) mod 2 ^ 64 /\
     (field a <= field b -> delta a b = field b - field a) /\
     (field b < field a ->
      delta a b = 2 ^ 64 - (field a - field b) /\
      (huge_delta (delta a b) <-> field a - field b <= 2 ^ 63))) /\
  (idle_time b < idle_time a -> others_non_decreasing a b ->
   idle_time a - idle_time b <= busy_advance a b < 2 ^ 53 ->
   total_delta a b = busy_advance a b - (idle_time a - idle_time b) /\
   U64.sub (total_delta a b) (idle_delta a b) = busy_advance a b /\
   sample_cpu_usage a b
     = Double.div (Double.of_u64 (busy_advance a b))
                  (Double.of_u64 (busy_advance a b - (idle_time a - idle_time b))) /\
   Double.in_unit_interval (sample_cpu_usage a b) = false /\
   (busy_advance a b = idle_time a - idle_time b ->
    sample_cpu_usage a b = S754_infinity false) /\
   (idle_time a - idle_time b < busy_advance a b ->
    Double.ltb Double.one (sample_cpu_usage a b) = true)).
Proof.
  intros Ha Hb. split.
  - intros field delta Hin.
    destruct (deltas_wrap_each a b Ha Hb field delta Hin) as (Hmod & Hfw & H).
    split; [exact Hmod|]. split; [exact Hfw|].
    intros Hlt. destruct (H Hlt) as [E _]. split; [exact E|].
    unfold huge_delta. rewrite E. lia.
  - intros Hdrop (N1 & N2 & N3 & N5 & N6 & N7) Hk.
    assert (Hd : forall field delta,
      In (field, delta)
         [ (user_time, user_delta); (nice_time, nice_delta);
           (system_kernel_time, system_delta); (idle_time, idle_delta);
           (iowait_time, iowait_delta); (irq_time, irq_delta);
           (softirq_time, softirq_delta) ] ->
      field a <= field b -> delta a b = field b - field a).
    { intros field delta Hin. now apply (deltas_wrap_each a b Ha Hb field delta Hin). }
    pose proof (Hd user_time user_delta ltac:(cbn; tauto) N1) as D1.
    pose proof (Hd nice_time nice_delta ltac:(cbn; tauto) N2) as D2.
    pose proof (Hd system_kernel_time system_delta ltac:(cbn; tauto) N3) as D3.
    pose proof (Hd iowait_time iowait_delta ltac:(cbn; tauto) N5) as D5.
    pose proof (Hd irq_time irq_delta ltac:(cbn; tauto) N6) as D6.
    pose proof (Hd softirq_time softirq_delta ltac:(cbn; tauto) N7) as D7.
    clear Hd.
    destruct (deltas_wrap_each a b Ha Hb idle_time idle_delta ltac:(cbn; tauto))
      as (_ & _ & H4).
    destruct (H4 Hdrop) as [D4 _]. clear H4.
    set (k := idle_time a - idle_time b) in *.
    set (n := busy_advance a b) in *.
    assert (Hn : n = user_delta a b + nice_delta a b + system_delta a b +
                     iowait_delta a b + irq_delta a b + softirq_delta a b).
    { rewrite D1, D2, D3, D5, D6, D7. reflexivity. }
    assert (Et : total_delta a b = n - k).
    { rewrite total_delta_is_sum. unfold spec_total, deltas. cbn [fold_right].
      replace (user_delta a b + (nice_delta a b + (system_delta a b +
                (idle_delta a b + (iowait_delta a b + (irq_delta a b +
                (softirq_delta a b + 0)))))))
        with ((n - k) + U64.modulus) by (rewrite Hn, D4; unfold U64.modulus; ring).
      apply u64_wrap_shift. unfold U64.in_range, U64.modulus. lia. }
    assert (Es : U64.sub (total_delta a b) (idle_delta a b) = n).
    { rewrite Et, D4. unfold U64.sub.
      replace (n - k - (2 ^ 64 - k)) with (n - U64.modulus)
        by (unfold U64.modulus; ring).
      apply u64_wrap_shift. unfold U64.in_range, U64.modulus. lia. }
    split; [exact Et|]. split; [exact Es|].
    unfold sample_cpu_usage. rewrite Es, Et. split; [reflexivity|].
    destruct (Z.eq_dec n k) as [E|E].
    + rewrite E, Z.sub_diag.
      destruct (of_u64_normal k ltac:(lia)) as (m & e & Ek & _). rewrite Ek.
      split; [reflexivity|]. split; [reflexivity|]. intros Hlt. lia.
    + destruct (quotient_above_one n (n - k) ltac:(lia) ltac:(lia)) as [H1 H2].
      split; [exact H2|]. split; [intros Hnk; lia|]. intros _. exact H1.
Qed.

Lemma counter_reset_wraps_witness :
  Double.in_unit_interval
    (sample_cpu_usage (snap_user_idle 0 1) (snap_user_idle 2 0)) = false.
Proof.
  refine (proj1 (proj2 (proj2 (proj2 (proj2 (counter_reset_wraps (snap_user_idle 0 1)
                   (snap_user_idle 2 0) _ _) _ _ _))))).
  - unfold cpusnap_wf, U64.in_range, U64.modulus; cbn; lia.
  - unfold cpusnap_wf, U64.in_range, U64.modulus; cbn; lia.
  - cbn; lia.
  - unfold others_non_decreasing; cbn; lia.
  - vm_compute. split; [discriminate|reflexivity].
Defined.

(** X1. Every value [sample_cpu_usage] can return, by the two integers it
    divides: NaN exactly when the total and the idle delta are both zero,
    plus infinity exactly when the total is zero and the idle delta is not,
    0.0 exactly when the idle delta equals a nonzero total, and otherwise a
    positive normal double. The value is never negative, never a negative
    zero and never subnormal. *)
Theorem sample_cpu_usage_classes (a b : cpusnap) :
  let t := total_delta a b in
  let i := idle_delta a b in
  (t = 0 /\ i = 0 /\ sample_cpu_usage a b = S754_nan) \/
  (t = 0 /\ i <> 0 /\ sample_cpu_usage a b = S754_infinity false) \/
  (t <> 0 /\ i = t /\ sample_cpu_usage a b = S754_zero false) \/
  (t <> 0 /\ i <> t /\
   exists m e, sample_cpu_usage a b = S754_finite false m e /\
               2 ^ 52 <= Zpos m < 2 ^ 53 /\ -117 <= e <= 13).
Proof.
  intros t i.
  assert (Ht : 0 <= t < 2 ^ 64) by apply u64_wrap_range.
  assert (Hi : 0 <= i < 2 ^ 64) by apply u64_wrap_range.
  unfold sample_cpu_usage. fold t i.
  assert (Hs : 0 <= U64.sub t i < 2 ^ 64) by apply u64_wrap_range.
  assert (Hz : U64.sub t i = 0 <-> i = t).
  { destruct (Z_le_gt_dec i t).
    - rewrite u64_sub_forward by (unfold U64.in_range, U64.modulus; lia). lia.
    - rewrite u64_sub_backward by (unfold U64.in_range, U64.modulus; lia).
      unfold U64.modulus. lia. }
  destruct (Z.eq_dec t 0) as [Et|Et]; destruct (Z.eq_dec i t) as [Ei|Ei].
  - left. rewrite (proj2 Hz Ei), Et.
    split; [reflexivity|]. split; [lia|]. reflexivity.
  - right; left. assert (Hn : 0 < U64.sub t i < 2 ^ 64) by lia.
    destruct (of_u64_normal _ Hn) as (m & e & E & _). rewrite E, Et.
    split; [reflexivity|]. split; [lia|]. reflexivity.
  - right; right; left. rewrite (proj2 Hz Ei).
    destruct (of_u64_normal t ltac:(lia)) as (m & e & E & _). rewrite E.
    split; [assumption|]. split; [assumption|]. reflexivity.
  - right; right; right.
    assert (Hn : 0 < U64.sub t i < 2 ^ 64) by lia.
    destruct (of_u64_normal _ Hn) as (m1 & e1 & E1 & Hm1 & He1).
    destruct (of_u64_normal t ltac:(lia)) as (m2 & e2 & E2 & Hm2 & He2).
    rewrite E1, E2.
    destruct (SFdiv_normal_rounds m1 m2 e1 e2 Hm1 Hm2 He1 He2)
      as (m & e & j & Ed & Hm & Hj & He & _).
    split; [assumption|]. split; [assumption|].
    exists m, e. unfold Double.div, Double.prec, Double.emax.
    split; [exact Ed|]. split; lia.
Qed.

(** X3. When the idle counter stands still and the total is not zero, the
    value returned is exactly 1.0: dividing a double by itself loses
    nothing. *)
Theorem fully_busy_is_one (a b : cpusnap) :
  idle_delta a b = 0 -> total_delta a b <> 0 ->
  sample_cpu_usage a b = Double.one.
Proof.
  intros Hi Ht.
  assert (Hr : 0 <= total_delta a b < 2 ^ 64) by apply u64_wrap_range.
  unfold sample_cpu_usage. rewrite Hi.
  assert (Hs : U64.sub (total_delta a b) 0 = total_delta a b).
  { unfold U64.sub. rewrite Z.sub_0_r. apply u64_wrap_small. exact Hr. }
  rewrite Hs.
  destruct (of_u64_normal (total_delta a b) ltac:(lia)) as (m & e & E & Hm & He).
  rewrite E, double_one. unfold Double.div, Double.prec, Double.emax.
  apply SFdiv_self; assumption.
Qed.

Lemma fully_busy_is_one_witness :
  sample_cpu_usage (snap_user_idle 0 900) (snap_user_idle 7 900) = Double.one.
Proof.
  apply fully_busy_is_one.
  - vm_compute. reflexivity.
  - vm_compute. discriminate.
Defined.

(** Adding an advance and taking the first reading off again gives the
    advance, wrapped or not. *)
Lemma u64_sub_add x d :
  U64.in_range d -> U64.sub (U64.add x d) x = d.
Proof.
  intros Hd. unfold U64.sub, U64.add, U64.wrap.
  rewrite Zminus_mod_idemp_l.
  replace (x + d - x) with d by ring. now apply Z.mod_small.
Qed.

(** The value returned depends on the two readings through their deltas
    only. *)
Lemma sample_cpu_usage_of_deltas (a b a' b' : cpusnap) :
  deltas a b = deltas a' b' -> sample_cpu_usage a b = sample_cpu_usage a' b'.
Proof.
  unfold deltas. intros H. injection H as H1 H2 H3 H4 H5 H6 H7.
  unfold sample_cpu_usage, total_delta.
  now rewrite H1, H2, H3, H4, H5, H6, H7.
Qed.

(** X2. Unsigned subtraction absorbs a counter that passed 2^64 between
    the two readings: whatever the first reading, the deltas are the amounts
    the counters advanced, the value returned is the one for those amounts
    counted from zero, and it lies in [0.0, 1.0] when the amounts add up to
    less than 2^64 and not to zero. *)
Theorem wraparound_tolerated (a adv : cpusnap) :
  cpusnap_wf adv ->
  deltas a (advance a adv) = counters adv /\
  sample_cpu_usage a (advance a adv)
    = sample_cpu_usage (mk_cpusnap 0 0 0 0 0 0 0) adv /\
  (0 < fold_right Z.add 0 (counters adv) < 2 ^ 64 ->
   Double.in_unit_interval (sample_cpu_usage a (advance a adv)) = true).
Proof.
  intros (H1 & H2 & H3 & H4 & H5 & H6 & H7).
  assert (Hd : deltas a (advance a adv) = counters adv).
  { unfold deltas, counters, user_delta, nice_delta, system_delta, idle_delta,
      iowait_delta, irq_delta, softirq_delta, advance.
    cbn [user_time nice_time system_kernel_time idle_time iowait_time irq_time
         softirq_time].
    now rewrite !u64_sub_add by assumption. }
  assert (Hz : deltas (mk_cpusnap 0 0 0 0 0 0 0) adv = counters adv).
  { unfold deltas, counters, user_delta, nice_delta, system_delta, idle_delta,
      iowait_delta, irq_delta, softirq_delta, U64.sub.
    cbn [user_time nice_time system_kernel_time idle_time iowait_time irq_time
         softirq_time].
    rewrite !Z.sub_0_r. now rewrite !u64_wrap_small by assumption. }
  split; [exact Hd|]. split.
  - apply sample_cpu_usage_of_deltas. now rewrite Hd, Hz.
  - intros Hsum. unfold sample_cpu_usage.
    rewrite total_delta_is_sum. unfold spec_total. rewrite Hd.
    injection Hd as _ _ _ Hi _ _ _. rewrite Hi.
    unfold counters in *. cbn [fold_right] in *.
    unfold U64.in_range, U64.modulus in *.
    rewrite u64_wrap_small by (unfold U64.in_range, U64.modulus; lia).
    rewrite u64_sub_forward by (unfold U64.in_range, U64.modulus; lia).
    apply unit_interval_of_quotient; lia.
Qed.

Lemma wraparound_tolerated_witness :
  deltas (mk_cpusnap (2 ^ 64 - 5) 0 0 900 0 0 0)
         (advance (mk_cpusnap (2 ^ 64 - 5) 0 0 900 0 0 0) (snap_user_idle 20 50))
  = [20; 0; 0; 50; 0; 0; 0].
Proof.
  refine (proj1 (wraparound_tolerated (mk_cpusnap (2 ^ 64 - 5) 0 0 900 0 0 0)
                   (snap_user_idle 20 50) _)).
  unfold cpusnap_wf, U64.in_range, U64.modulus; cbn; lia.
Defined.

(** X4. When every counter advanced and the seven differences add up to a
    total below 2^53, nothing wraps and nothing is lost before the division:
    the total and the numerator are the true sums, and their conversions to
    double are exact. The value returned is then the exact ratio
    [(total - idle) / total] correctly rounded: a normal double within half a
    unit in the last place of the ratio, hence within 2^-53 of it. *)
Theorem utilization_correctly_rounded (a b : cpusnap) :
  cpusnap_wf a -> cpusnap_wf b -> fields_non_decreasing a b ->
  0 < true_total a b < 2 ^ 53 ->
  let t := true_total a b in
  let busy := true_total a b - (idle_time b - idle_time a) in
  total_delta a b = t /\
  U64.sub (total_delta a b) (idle_delta a b) = busy /\
  (exists vb, Double.value (Double.of_u64 busy) = Some vb /\
              (vb == inject_Z busy)%Q) /\
  (exists vt, Double.value (Double.of_u64 t) = Some vt /\
              (vt == inject_Z t)%Q) /\
  sample_cpu_usage a b = Double.div (Double.of_u64 busy) (Double.of_u64 t) /\
  (exists v, Double.value (sample_cpu_usage a b) = Some v /\
             (Qabs (v - (busy # Z.to_pos t)) <= 1 # 9007199254740992)%Q) /\
  (0 < busy ->
   exists m e, sample_cpu_usage a b = S754_finite false m e /\
               2 ^ 52 <= Zpos m < 2 ^ 53 /\
               -106 <= e <= -52 /\
               Z.abs (2 * (Zpos m * t - busy * 2 ^ (- e))) <= t).
Proof.
  intros Ha Hb Hnd Ht t busy.
  assert (Hd : forall field delta,
    In (field, delta)
       [ (user_time, user_delta); (nice_time, nice_delta);
         (system_kernel_time, system_delta); (idle_time, idle_delta);
         (iowait_time, iowait_delta); (irq_time, irq_delta);
         (softirq_time, softirq_delta) ] ->
    field a <= field b -> delta a b = field b - field a).
  { intros field delta Hin. now apply (deltas_wrap_each a b Ha Hb field delta Hin). }
  destruct Hnd as (N1 & N2 & N3 & N4 & N5 & N6 & N7).
  pose proof (Hd user_time user_delta ltac:(cbn; tauto) N1) as D1.
  pose proof (Hd nice_time nice_delta ltac:(cbn; tauto) N2) as D2.
  pose proof (Hd system_kernel_time system_delta ltac:(cbn; tauto) N3) as D3.
  pose proof (Hd idle_time idle_delta ltac:(cbn; tauto) N4) as D4.
  pose proof (Hd iowait_time iowait_delta ltac:(cbn; tauto) N5) as D5.
  pose proof (Hd irq_time irq_delta ltac:(cbn; tauto) N6) as D6.
  pose proof (Hd softirq_time softirq_delta ltac:(cbn; tauto) N7) as D7.
  clear Hd.
  assert (Et : total_delta a b = t).
  { rewrite total_delta_is_sum. unfold spec_total, deltas. cbn [fold_right].
    rewrite D1, D2, D3, D4, D5, D6, D7.
    rewrite u64_wrap_small; [unfold t, true_total; ring|].
    unfold U64.in_range, U64.modulus. unfold true_total in Ht. lia. }
  assert (Hbusy : 0 <= busy <= t) by (subst busy t; unfold true_total in *; lia).
  assert (Es : U64.sub (total_delta a b) (idle_delta a b) = busy).
  { rewrite Et, D4. unfold U64.sub. fold busy.
    apply u64_wrap_small. unfold U64.in_range, U64.modulus. lia. }
  split; [exact Et|]. split; [exact Es|].
  split; [apply of_u64_value; lia|].
  split; [apply of_u64_value; lia|].
  unfold sample_cpu_usage. rewrite Es, Et. split; [reflexivity|].
  destruct (Z.eq_dec busy 0) as [E0|E0].
  - rewrite E0. split; [|lia].
    destruct (of_u64_normal t ltac:(lia)) as (m & e & E & _). rewrite E.
    exists 0%Q. split; [reflexivity|].
    apply Qle_bool_imp_le. reflexivity.
  - destruct (quotient_correctly_rounded busy t ltac:(lia) ltac:(lia))
      as (m & e & Ed & Hm & He & Hnear).
    rewrite Ed. split.
    + apply value_near_ratio; lia.
    + intros _. exists m, e. split; [reflexivity|].
      split; [exact Hm|]. split; assumption.
Qed.

Lemma utilization_correctly_rounded_witness :
  exists v,
    Double.value (sample_cpu_usage (snap_user_idle 100 900) (snap_user_idle 120 950))
      = Some v /\
    (Qabs (v - (20 # 70)) <= 1 # 9007199254740992)%Q.
Proof.
  refine (proj1 (proj2 (proj2 (proj2 (proj2 (proj2 (utilization_correctly_rounded
                   (snap_user_idle 100 900) (snap_user_idle 120 950) _ _ _ _))))))).
  - unfold cpusnap_wf, U64.in_range, U64.modulus; cbn; lia.
  - unfold cpusnap_wf, U64.in_range, U64.modulus; cbn; lia.
  - unfold fields_non_decreasing; cbn; lia.
  - vm_compute. split; reflexivity.
Defined.

(* ===================================================================== *)
(** ** Further properties of the two loops *)
(* ===================================================================== *)

(** One call: the log grows by the flushed record, if the call is a flush,
    and the samples obtained by the one returned, if the call is
    [sample_usage()]. *)
Lemma step_grows (existing : list sample) (e : event) (p p1 : process) :
  consistent existing p -> step e p = Some p1 ->
  exists more,
    Writer.log (writer p1) = Writer.log (writer p) ++ more /\
    List.length more = flushes [e] /\
    samples_of (producer_calls p1) = samples_of (producer_calls p) ++ sampled [e].
Proof.
  intros (_ & _ & ds & _ & Hbuf & _ & _) Hs.
  unfold step in Hs. destruct (exited p); [discriminate|].
  destruct e as [data| | | | |].
  - unfold main_loop in Hs. destruct (producer p); [|discriminate].
    inversion Hs; subst p1; clear Hs. exists []. pipeline_fields.
    rewrite samples_of_app, app_nil_r. repeat split.
  - unfold main_loop in Hs. destruct (producer p) as [|d]; [discriminate|].
    destruct (Samplequeue.push (samplequeue p) d); try discriminate.
    inversion Hs; subst p1; clear Hs. exists []. pipeline_fields.
    rewrite samples_of_app, app_nil_r. repeat split.
  - unfold write in Hs. destruct (consumer p); try discriminate.
    destruct (Samplequeue.pop (samplequeue p)); try discriminate.
    inversion Hs; subst p1; clear Hs. exists []. pipeline_fields.
    rewrite !app_nil_r. repeat split.
  - unfold write in Hs. destruct (consumer p) as [|d|d]; try discriminate.
    inversion Hs; subst p1; clear Hs. exists [].
    unfold Writer.write_sample. pipeline_fields.
    rewrite !app_nil_r. repeat split.
  - unfold write in Hs. destruct (consumer p) as [|d|d]; try discriminate.
    inversion Hs; subst p1; clear Hs. exists [d].
    unfold Writer.flush. pipeline_fields.
    rewrite Hbuf, app_nil_r. repeat split.
  - inversion Hs; subst p1; clear Hs. exists []. pipeline_fields.
    rewrite !app_nil_r. repeat split.
Qed.

(** Along a run: one record per flush, one sample per [sample_usage()]. *)
Lemma run_grows (existing : list sample) (es : list event) : forall p p',
  consistent existing p -> run es p = Some p' ->
  exists more,
    Writer.log (writer p') = Writer.log (writer p) ++ more /\
    List.length more = flushes es /\
    samples_of (producer_calls p') = samples_of (producer_calls p) ++ sampled es.
Proof.
  induction es as [|e es IH]; intros p p' Hc Hr; cbn [run] in Hr.
  - inversion Hr; subst. exists []. rewrite !app_nil_r. repeat split.
  - destruct (step e p) as [p1|] eqn:Es; [|discriminate].
    destruct (step_grows existing e p p1 Hc Es) as (m1 & L1 & N1 & S1).
    destruct (IH p1 p' (step_consistent existing e p p1 Hc Es) Hr)
      as (m2 & L2 & N2 & S2).
    exists (m1 ++ m2). rewrite L2, L1, S2, S1, <- !app_assoc, length_app, N1, N2.
    split; [reflexivity|]. split.
    + unfold flushes. cbn [filter]. destruct e; reflexivity.
    + f_equal. unfold sampled. cbn [flat_map]. now rewrite app_nil_r.
Qed.

(** X5. From any state the program reaches, between any two calls of either
    thread, further events append to the log exactly one record per flush, in
    the order the samples were obtained: the new records are the first
    samples among those on their way (the one in the consumer's hands, the
    queue, the one in the producer's hands) followed by those obtained since;
    the others are still on their way, in that order; earlier records are
    never changed, and no flush happens without a sample to record. *)
Theorem log_grows_in_production_order
    (cap : nat) (existing : list sample) (es es' : list event) (p p' : process) :
  run es (start cap existing) = Some p ->
  run es' p = Some p' ->
  let pending := pipeline p ++ sampled es' in
  (flushes es' <= List.length pending)%nat /\
  Writer.log (writer p') = Writer.log (writer p) ++ firstn (flushes es') pending /\
  pipeline p' = skipn (flushes es') pending.
Proof.
  intros Hr Hr' pending.
  pose proof (run_consistent existing es _ _ (start_consistent existing cap) Hr) as Hc.
  pose proof (run_consistent existing es' _ _ Hc Hr') as Hc'.
  destruct (run_grows existing es' p p' Hc Hr') as (more & Hl & Hn & Hs).
  destruct Hc as (_ & _ & ds & _ & _ & Hlog & Hsam).
  destruct Hc' as (_ & _ & ds' & _ & _ & Hlog' & Hsam').
  rewrite Hlog', Hlog, <- app_assoc in Hl. apply app_inv_head in Hl. subst ds'.
  rewrite Hsam', Hsam, <- !app_assoc in Hs. apply app_inv_head in Hs.
  fold pending in Hs.
  rewrite Hlog', Hlog, <- Hs, <- Hn.
  rewrite length_app, firstn_app, skipn_app, Nat.sub_diag, firstn_all, skipn_all.
  cbn [firstn skipn app]. rewrite !app_nil_r, <- app_assoc.
  repeat split. lia.
Qed.

Lemma log_grows_in_production_order_witness :
  exists p',
    run [Flush; Sample (mk_sample Double.zero 3); Pop; WriteSample; Flush]
        (mk_process
           (Samplequeue.mk [mk_sample Double.one 2] false 4)
           (Writer.mk "sample.csv" [] [mk_sample Double.zero 1] 0)
           [CallSampleUsage (mk_sample Double.zero 1); CallPush (mk_sample Double.zero 1);
            CallSampleUsage (mk_sample Double.one 2); CallPush (mk_sample Double.one 2)]
           [CallPop (mk_sample Double.zero 1); CallWriteSample (mk_sample Double.zero 1)]
           AtSampleUsage (AtFlush (mk_sample Double.zero 1)) false) = Some p' /\
    Writer.log (writer p') = [] ++ [mk_sample Double.zero 1; mk_sample Double.one 2] /\
    pipeline p' = [mk_sample Double.zero 3].
Proof.
  exists_outcome.
  match goal with
  | |- ?r = Some ?q /\ _ => assert (Hr' : r = Some q) by (run_by_calls; reflexivity)
  end.
  split; [exact Hr'|].
  assert (Hr : run [Sample (mk_sample Double.zero 1); Push;
                    Sample (mk_sample Double.one 2); Push; Pop; WriteSample]
                   (start 4 [])
               = Some (mk_process
                  (Samplequeue.mk [mk_sample Double.one 2] false 4)
                  (Writer.mk "sample.csv" [] [mk_sample Double.zero 1] 0)
                  [CallSampleUsage (mk_sample Double.zero 1);
                   CallPush (mk_sample Double.zero 1);
                   CallSampleUsage (mk_sample Double.one 2);
                   CallPush (mk_sample Double.one 2)]
                  [CallPop (mk_sample Double.zero 1);
                   CallWriteSample (mk_sample Double.zero 1)]
                  AtSampleUsage (AtFlush (mk_sample Double.zero 1)) false))
    by (run_by_calls; reflexivity).
  exact (proj2 (log_grows_in_production_order 4 [] _ _ _ _ Hr Hr')).
Defined.
